(** * The N-queens constrained model of [8queens_cqm.py]

    A shallow embedding of the script that builds the constrained
    model of the N-queens puzzle (one binary variable per square, one
    counting constraint per board, row, column and diagonal) and of
    the loop that prints the boards returned by the sampler, with the
    properties of the model and of the printed text. *)

From Stdlib Require Import Ascii String Qcanon.
From stdpp Require Import base numbers list strings pretty gmap sorting.

Local Open Scope Z_scope.

(** ** Python values used by the script *)

Module Py.

(** [range(n)] and [range(a, b)] over Python integers. *)
Definition range (n : Z) : list Z := seqZ 0 n.
Definition range2 (a b : Z) : list Z := seqZ a (b - a).

(** [str(i)] of an integer: decimal digits, with a leading minus
    sign for a negative number. *)
Definition str (i : Z) : string := pretty i.

(** [l[i]] on a Python list: a negative index counts from the end,
    an index outside the list raises [IndexError]. *)
Definition index {A} (l : list A) (i : Z) : option A :=
  if bool_decide (0 ≤ i) then l !! Z.to_nat i
  else if bool_decide (- Z.of_nat (length l) ≤ i)
       then l !! Z.to_nat (Z.of_nat (length l) + i)
       else None.

(** A dictionary comprehension stores its items from left to right:
    a later item replaces an earlier one with the same key. *)
Definition dict_of `{Countable K} {A} (kvs : list (K * A)) : gmap K A :=
  foldl (λ m kv, <[kv.1 := kv.2]> m) ∅ kvs.

(** [text.split("\n")]: the lines of a text; the last one is what
    follows the last line feed. *)
Fixpoint split_nl (text : string) : list string :=
  match text with
  | EmptyString => [EmptyString]
  | String a rest =>
      if Ascii.eqb a (ascii_of_nat 10) then EmptyString :: split_nl rest
      else match split_nl rest with
           | line :: lines => String a line :: lines
           | [] => [String a EmptyString]
           end
  end.

(** A [for] loop whose body may raise, threading the state [s]. *)
Fixpoint for_each {S A} (body : S → A → option S) (s : S) (l : list A)
    : option S :=
  match l with
  | [] => Some s
  | x :: l => s' ← body s x; for_each body s' l
  end.

(** [enumerate(l)]. *)
Definition enumerate {A} (l : list A) : list (Z * A) :=
  imap (λ i x, (Z.of_nat i, x)) l.

End Py.

(** ** The part of numpy used by the script *)

Module Np.

(** A two-dimensional array of integers, as the list of its rows.
    The grids of the script hold the numbers below [N * N], which fit
    a machine integer for any board that fits in memory: the entries
    are modelled as unbounded integers. *)
Abbreviation array := (list (list Z)).

Definition nrows (a : array) : Z := Z.of_nat (length a).
Definition ncols (a : array) : Z := Z.of_nat (length (default [] (head a))).

(** [a[i, j]] for indices inside the array. *)
Definition get (a : array) (i j : Z) : Z :=
  (a !!! Z.to_nat i) !!! Z.to_nat j.

(** [a[:, ::-1]]: every row reversed. *)
Definition flip_columns (a : array) : array := reverse <$> a.

(** [np.diag(a, k).tolist()] of a two-dimensional array: the entries
    [a[i, i + k]] when [k >= 0] and [a[i - k, i]] when [k < 0], for
    as long as both indices are inside the array. *)
Definition diag (a : array) (k : Z) : list Z :=
  if bool_decide (0 ≤ k)
  then (λ i, get a i (i + k)) <$> Py.range (Z.min (nrows a) (ncols a - k))
  else (λ i, get a (i - k) i) <$> Py.range (Z.min (nrows a + k) (ncols a)).

(** [np.argsort(keys)] of a one-dimensional array of floating-point
    numbers, modelled as rationals.  The default sort of numpy is not
    stable, and which one it runs depends on the length of the array
    and on the machine: what is known of the result is that it lists
    every index of [keys] once and that the keys come in
    non-decreasing order along it.  The functions with this property
    are the ones that [np.argsort] may be. *)
Definition is_argsort (argsort : list Qc → list nat) : Prop :=
  ∀ keys,
    argsort keys ≡ₚ seq 0 (length keys) ∧
    ∀ (i j a b : nat) x y,
      (i ≤ j)%nat → argsort keys !! i = Some a → argsort keys !! j = Some b →
      keys !! a = Some x → keys !! b = Some y → (x ≤ y)%Qc.

(** One such function, [np.argsort(keys, kind='stable')]: among equal
    keys the indices come in increasing order. *)
Definition key_le (p q : nat * Qc) : Prop := (p.2 ≤ q.2)%Qc.

Global Instance key_le_dec : RelDecision key_le.
Proof. intros p q. unfold key_le. apply _. Defined.

Definition stable_argsort (keys : list Qc) : list nat :=
  fst <$> merge_sort key_le (zip (seq 0 (length keys)) keys).

End Np.

(** ** The part of dimod used by the script *)

Module Dimod.

(** A sum of binary variables with unit coefficients, as the list of
    the labels of its terms. *)
Abbreviation lin := (list string).

(** [dimod.Binary(label)]. *)
Definition Binary (label : string) : lin := [label].

(** [sum(...)] of such expressions.  The sum of nothing is the
    integer 0 in Python: it is the empty list here, which
    [add_constraint] refuses below. *)
Definition sum (es : list lin) : lin := mjoin es.

Inductive sense := EQ | LE.

Global Instance sense_eq_dec : EqDecision sense.
Proof. solve_decision. Defined.

Record comparison := Comparison {
  cmp_lhs : lin;
  cmp_sense : sense;
  cmp_rhs : Z
}.

Definition eq_cmp (e : lin) (b : Z) : comparison := Comparison e EQ b.
Definition le_cmp (e : lin) (b : Z) : comparison := Comparison e LE b.

Record constraint := Constraint {
  c_label : string;
  c_cmp : comparison
}.

(** A constrained model: its constraints in the order they were
    added, and its objective when one was set. *)
Record CQM := Model {
  constraints : list constraint;
  objective : option lin
}.

(** [dimod.CQM()]. *)
Definition empty : CQM := Model [] None.

Definition labels (m : CQM) : list string := c_label <$> constraints m.

(** [cqm.add_constraint(comparison, label=...)].  It raises when the
    left side has no variable (the Python sum of nothing is the
    integer 0, and its comparison with a number a plain [bool]) and
    when the label is already in use. *)
Definition add_constraint (cmp : comparison) (label : string) (m : CQM)
    : option CQM :=
  if bool_decide (cmp_lhs cmp = []) then None
  else if bool_decide (label ∈ labels m) then None
  else Some (Model (constraints m ++ [Constraint label cmp]) (objective m)).

(** One row of a sample set: the values of the variables, as a
    dictionary (the value of a binary variable is the number 0 or 1,
    modelled as an integer), the energy of the row (a floating-point
    number, modelled as a rational) and the feasibility flag set by
    the sampler. *)
Record sample := Sample {
  values : gmap string Z;
  energy : Qc;
  is_feasible : bool
}.

(** A sample set, as the list of the rows of its record array, in the
    order in which the sampler stored them. *)
Abbreviation sampleset := (list sample).

(** [sampleset.filter(lambda d: d.is_feasible)]: the rows that pass,
    in the order of the record array. *)
Definition filter_feasible (ss : sampleset) : sampleset :=
  filter (λ d, is_feasible d = true) ss.

Section Ranking.

(** [np.argsort], see [Np.is_argsort]. *)
Variable argsort : list Qc → list nat.

(** [record[indices]]: the rows at the given indices, in their order.
    The indices that [np.argsort] returns are indices of the array;
    an index outside it, which numpy would refuse, is skipped. *)
Definition rows_at (ss : sampleset) (indices : list nat) : sampleset :=
  omap (λ i, ss !! i) indices.

(** The ranking that dimod computes where [sorted_by] is left at its
    default ['energy']: [np.argsort(record.energy)]. *)
Definition ranking (ss : sampleset) : list nat := argsort (energy <$> ss).

(** [sampleset.truncate(n)], that is [slice(n, sorted_by='energy')]:
    the rows at the first [n] indices of the ranking. *)
Definition truncate (n : Z) (ss : sampleset) : sampleset :=
  rows_at ss (take (Z.to_nat n) (ranking ss)).

(** [iter(sampleset)], that is [samples(sorted_by='energy')]: the
    rows in the order of the ranking of the set, computed anew. *)
Definition iter (ss : sampleset) : sampleset := rows_at ss (ranking ss).

End Ranking.

(** The value of a sum of variables on a sample. *)
Definition eval (s : gmap string Z) (e : lin) : option Z :=
  foldr (λ x acc, v ← s !! x; t ← acc; Some (v + t)) (Some 0) e.

(** A sample satisfies a comparison. *)
Definition holds (s : gmap string Z) (cmp : comparison) : Prop :=
  ∃ t, eval s (cmp_lhs cmp) = Some t ∧
       match cmp_sense cmp with
       | EQ => t = cmp_rhs cmp
       | LE => t ≤ cmp_rhs cmp
       end.

(** A sample satisfies every constraint of a model. *)
Definition satisfies (s : gmap string Z) (m : CQM) : Prop :=
  Forall (λ c, holds s (c_cmp c)) (constraints m).

(** The variables of a model: those of its constraints. *)
Definition model_variables (m : CQM) : list string :=
  c ← constraints m; cmp_lhs (c_cmp c).

(** A sample of a model gives a value to every variable of the
    model: the samples that the sampler returns for it do. *)
Definition answers (m : CQM) (s : sample) : Prop :=
  Forall (λ x, is_Some (values s !! x)) (model_variables m).

End Dimod.

(** ** The script: building the model *)

Section Script.

Import Py Dimod.

(** The two parameters of the script. *)
Variables (NQ N : Z).

Definition varname (r c : Z) : string :=
  "square_r" +:+ str r +:+ "_c" +:+ str c.

Definition vlabels : list string :=
  r ← range N; c ← range N; [varname r c].

Definition vnum : Np.array :=
  (λ r, (λ c, r * N + c) <$> range N) <$> range N.

Definition rvnum : Np.array := Np.flip_columns vnum.

Definition variables : list lin :=
  r ← range N; c ← range N; [Binary (varname r c)].

Definition board : option (gmap (Z * Z) lin) :=
  dict_of <$>
    mapM (λ p : Z * Z, let '(c, r) := p in
            v ← index variables (r * N + c); Some ((r, c), v))
         (c ← range N; r ← range N; [(c, r)]).

(** [diags] starts empty and receives one list per grid and offset. *)
Definition diags : list (list Z) :=
  foldl (λ diags a,
           foldl (λ diags k, diags ++ [Np.diag a k])
                 diags (range2 (- (N - 2)) (N - 1)))
        [] [vnum; rvnum].

Definition col_label (c : Z) : string := "col_" +:+ str c +:+ "_total".
Definition row_label (r : Z) : string := "row_" +:+ str r +:+ "_total".
Definition diag_label (i : Z) : string := "diag_" +:+ str i +:+ "_total".

(** The four groups of [add_constraint] calls, on a fresh model. *)
Definition build : option CQM :=
  board ← board;
  e ← mapM (λ p : Z * Z, board !! p) (r ← range N; c ← range N; [(r, c)]);
  cqm ← add_constraint (eq_cmp (sum e) NQ) "board_total" empty;
  cqm ← for_each (λ cqm c,
            e ← mapM (λ r, board !! (r, c)) (range N);
            add_constraint (le_cmp (sum e) 1) (col_label c) cqm)
          cqm (range N);
  cqm ← for_each (λ cqm r,
            e ← mapM (λ c, board !! (r, c)) (range N);
            add_constraint (le_cmp (sum e) 1) (row_label r) cqm)
          cqm (range N);
  for_each (λ cqm (id : Z * list Z),
            e ← mapM (λ v, index variables v) id.2;
            add_constraint (le_cmp (sum e) 1) (diag_label id.1) cqm)
          cqm (enumerate diags).

End Script.

(** ** Printing *)

Module IO.

(** A computation that prints: from the text printed so far to the
    text printed after it, with its result, or [None] when it raised. *)
Definition io (A : Type) : Type := string → string * option A.

Global Instance io_ret : MRet io := λ A x out, (out, Some x).

Global Instance io_bind : MBind io := λ A B k m out,
  match m out with
  | (out', Some x) => k x out'
  | (out', None) => (out', None)
  end.

(** The line feed that ends a printed line. *)
Definition nl : string := String (ascii_of_nat 10) EmptyString.

(** [print(text, end=e)]. *)
Definition print (text e : string) : io unit :=
  λ out, (out +:+ text +:+ e, Some tt).

(** An optional value, raising when there is none. *)
Definition lift {A} (o : option A) : io A := λ out, (out, o).

(** A [for] loop. *)
Fixpoint for_each {A} (body : A → io unit) (l : list A) : io unit :=
  match l with
  | [] => mret tt
  | x :: l => body x ;; for_each body l
  end.

(** [text * n] on Python strings. *)
Fixpoint times (text : string) (n : nat) : string :=
  match n with
  | O => EmptyString
  | S n => text +:+ times text n
  end.

(** The texts of a list end to end. *)
Definition join {A} (text : A → string) (l : list A) : string :=
  foldr (λ x acc, text x +:+ acc) EmptyString l.

End IO.

(** ** The script: reporting the samples *)

Section Report.

Import Py Dimod IO.

Variable N : Z.

(** The text that [print(best_samples)] writes for a sample set,
    fixed by dimod. *)
Variable table : list sample → string.

(** The sort that dimod calls to rank the rows by energy. *)
Variable argsort : list Qc → list nat.

(** The body of the loop over the columns. *)
Definition print_square (s : sample) (r c : Z) : io unit :=
  v ← lift (values s !! varname r c);
  let q := if bool_decide (0 < v) then "W" else "." in
  print ("|." +:+ q +:+ ".") "".

(** The body of the loop over the rows. *)
Definition print_row (s : sample) (r : Z) : io unit :=
  for_each (print_square s r) (range N);;
  print "|" nl.

(** The body of the loop over the retained samples. *)
Definition print_board (i_s : Z * sample) : io unit :=
  print ("Result " +:+ str (i_s.1 + 1) +:+ "    =====================") nl;;
  for_each (print_row i_s.2) (range N);;
  print "=================================" nl.

Definition report (raw_sampleset : list sample) : io unit :=
  let feasible_sampleset := filter_feasible raw_sampleset in
  let num_feasible := Z.of_nat (length feasible_sampleset) in
  print (str num_feasible +:+ " Feasible samples") nl;;
  best_samples ←
    (if bool_decide (0 < num_feasible)
     then mret (truncate argsort (Z.min 10 num_feasible) feasible_sampleset)
     else print "Warning: Did not find feasible solution" nl;;
          mret (truncate argsort 10 raw_sampleset));
  print (" " +:+ nl +:+ times "=" 30 +:+ "BEST SAMPLE SET" +:+ times "=" 30) nl;;
  print (table best_samples) nl;;
  for_each print_board (enumerate (iter argsort best_samples)).

(** The text of one square, of one row and of one board. *)
Definition square_text (v : Z) : string :=
  "|." +:+ (if bool_decide (0 < v) then "W" else ".") +:+ ".".

Definition row_text (s : sample) (r : Z) : string :=
  join (λ c, square_text (default 0 (values s !! varname r c))) (range N)
  +:+ "|" +:+ nl.

(** The text of a row without its line feed. *)
Definition row_line (s : sample) (r : Z) : string :=
  join (λ c, square_text (default 0 (values s !! varname r c))) (range N)
  +:+ "|".

Definition board_text (i_s : Z * sample) : string :=
  "Result " +:+ str (i_s.1 + 1) +:+ "    =====================" +:+ nl
  +:+ join (row_text i_s.2) (range N)
  +:+ "=================================" +:+ nl.

(** The sample gives a value to every square variable. *)
Definition complete (s : sample) : Prop :=
  Forall (λ x, is_Some (values s !! x)) (vlabels N).

End Report.

(** The whole script, with the sampler as a function of the state of
    the service: the model handed to the sampler, the state of the
    service afterwards, the text printed and whether the run ended
    without raising. *)
Section Run.

Import Py Dimod IO.

Context {W : Type}.
Variable sample_cqm : CQM → W → option (list sample) * W.
Variable table : list sample → string.
Variable argsort : list Qc → list nat.

Definition script (NQ N : Z) (w : W) : option CQM * W * (string * option unit) :=
  match build NQ N with
  | None => (None, w, (EmptyString, None))
  | Some cqm =>
      match sample_cqm cqm w with
      | (None, w') => (Some cqm, w', (EmptyString, None))
      | (Some raw_sampleset, w') =>
          (Some cqm, w', report N table argsort raw_sampleset EmptyString)
      end
  end.

End Run.

Example print_row_2 :
  print_row 2 (Dimod.Sample (Py.dict_of
      [("square_r0_c0", 0); ("square_r0_c1", 1)]%string) 0 true) 0 ""
  = (("|...|.W.|" +:+ IO.nl)%string, Some tt).
Proof. reflexivity. Qed.

(** ** Strings: decimal numerals and labels *)

Section Strings.

Local Open Scope char_scope.

(** [count a s]: the number of occurrences of the character [a] in [s]. *)
Fixpoint count (a : ascii) (s : string) : nat :=
  match s with
  | EmptyString => 0
  | String b s => (if bool_decide (a = b) then 1 else 0) + count a s
  end.

Lemma append_cons b (s t : string) : String b s +:+ t = String b (s +:+ t).
Proof. done. Qed.

Lemma count_app a s t : count a (s +:+ t) = (count a s + count a t)%nat.
Proof.
  induction s as [|b s IH]; [done|].
  rewrite append_cons. simpl. rewrite IH. lia.
Qed.

Lemma append_assoc (s t u : string) : (s +:+ t) +:+ u = s +:+ t +:+ u.
Proof. induction s as [|b s IH]; [done|]. rewrite !append_cons. by f_equal. Qed.

Lemma append_nil_l (s : string) : "" +:+ s = s.
Proof. done. Qed.

Lemma append_nil_r (s : string) : s +:+ "" = s.
Proof. induction s as [|b s IH]; [done|]. rewrite append_cons. by f_equal. Qed.

(** A character that is neither a digit nor the minus sign does not
    occur in the decimal numeral of an integer. *)
Definition not_numeric (a : ascii) : Prop :=
  a ≠ "-" ∧ ∀ x, pretty_N_char x ≠ a.

Lemma not_numeric_underscore : not_numeric "_".
Proof. split; [done|]. intros x. unfold pretty_N_char. by repeat case_match. Qed.

Lemma not_numeric_W : not_numeric "W".
Proof. split; [done|]. intros x. unfold pretty_N_char. by repeat case_match. Qed.

Lemma count_pretty_N_go a x s :
  not_numeric a → count a s = 0%nat → count a (pretty_N_go x s) = 0%nat.
Proof.
  intros [_ Ha]. revert s. induction (N.lt_wf_0 x) as [x _ IH]; intros s Hs.
  destruct (decide (x = 0)%N) as [->|]; [by rewrite pretty_N_go_0|].
  rewrite pretty_N_go_step by lia. apply IH.
  - apply N.div_lt; lia.
  - simpl. rewrite Hs, bool_decide_eq_false_2; [done|].
    intros E. by apply (Ha (x `mod` 10)%N).
Qed.

Lemma count_pretty_N a (x : N) : not_numeric a → count a (pretty x) = 0%nat.
Proof.
  intros Ha. unfold pretty, pretty_N. case_decide.
  - simpl. rewrite bool_decide_eq_false_2; [done|].
    intros ->. by apply (proj2 Ha 0%N).
  - by apply count_pretty_N_go.
Qed.

Lemma count_str a i : not_numeric a → count a (Py.str i) = 0%nat.
Proof.
  intros Ha. unfold Py.str, pretty, pretty_Z. destruct i as [|p|p].
  - apply (count_pretty_N a 0%N Ha).
  - exact (count_pretty_N a (Npos p) Ha).
  - rewrite count_app.
    rewrite (count_pretty_N a (Npos p) Ha : count a (pretty p) = 0%nat).
    simpl. rewrite bool_decide_eq_false_2; [done|]. apply Ha.
Qed.

Lemma str_underscore i : count "_" (Py.str i) = 0%nat.
Proof. apply count_str, not_numeric_underscore. Qed.

Global Instance str_inj : Inj (=) (=) Py.str.
Proof. unfold Py.str. apply _. Qed.

(** A text is cut at its first underscore in one way only. *)
Lemma cut_at_underscore s1 s2 t1 t2 :
  count "_" s1 = 0%nat → count "_" s2 = 0%nat →
  s1 +:+ String "_" t1 = s2 +:+ String "_" t2 → s1 = s2 ∧ t1 = t2.
Proof.
  revert s2. induction s1 as [|a s1 IH]; intros [|b s2]; simpl; intros H1 H2 E.
  - by simplify_eq.
  - by simplify_eq.
  - by simplify_eq.
  - injection E as -> E. destruct (IH s2) as [-> ->]; [lia..|done|done].
Qed.

End Strings.

Lemma varname_inj r c r' c' : varname r c = varname r' c' → r = r' ∧ c = c'.
Proof.
  unfold varname. intros E. apply (inj (String.append "square_r")) in E.
  apply cut_at_underscore in E as [Hr Hc]; [|apply str_underscore..].
  apply (inj Py.str) in Hr. by simplify_eq/=.
Qed.

Global Instance col_label_inj : Inj (=) (=) col_label.
Proof.
  intros c c' E. unfold col_label in E. apply (inj (String.append "col_")) in E.
  apply cut_at_underscore in E as [E _]; [|apply str_underscore..].
  by apply (inj Py.str).
Qed.

Global Instance row_label_inj : Inj (=) (=) row_label.
Proof.
  intros c c' E. unfold row_label in E. apply (inj (String.append "row_")) in E.
  apply cut_at_underscore in E as [E _]; [|apply str_underscore..].
  by apply (inj Py.str).
Qed.

Global Instance diag_label_inj : Inj (=) (=) diag_label.
Proof.
  intros c c' E. unfold diag_label in E. apply (inj (String.append "diag_")) in E.
  apply cut_at_underscore in E as [E _]; [|apply str_underscore..].
  by apply (inj Py.str).
Qed.

(** ** Comprehensions, indexing and dictionaries *)

Lemma bind_ret_fmap {A B} (f : A → B) (l : list A) : (x ← l; [f x]) = f <$> l.
Proof. induction l as [|x l IH]; csimpl; [done|]. by rewrite IH. Qed.

Section Comprehensions.

Import Py.

Context {A B : Type}.

(** A comprehension over rows then columns lists the squares by
    their row-major number. *)
Lemma grid_flat (f : Z → Z → B) N :
  0 ≤ N →
  (r ← range N; c ← range N; [f r c])
  = (λ i, f (i `div` N) (i `mod` N)) <$> range (N * N).
Proof.
  intros HN. unfold range.
  cut (∀ n : nat,
    (r ← seqZ 0 (Z.of_nat n); c ← seqZ 0 N; [f r c])
    = (λ i, f (i `div` N) (i `mod` N)) <$> seqZ 0 (Z.of_nat n * N)).
  { intros H. specialize (H (Z.to_nat N)). by rewrite Z2Nat.id in H. }
  induction n as [|n IH]; [done|].
  rewrite seqZ_S, bind_app, IH, bind_singleton. cbv beta. rewrite bind_ret_fmap.
  replace (Z.of_nat (S n) * N) with (Z.of_nat n * N + N) by lia.
  rewrite seqZ_app, fmap_app by lia. f_equal.
  replace (0 + Z.of_nat n * N) with (Z.of_nat n * N + 0) by lia.
  rewrite <-fmap_add_seqZ, <-list_fmap_compose.
  apply list_fmap_ext. intros i c [-> Hc]%lookup_seqZ. simpl.
  rewrite !Z.add_0_l.
  f_equal.
  - rewrite (Z.add_comm (_ * _)), Z.div_add by lia.
    rewrite Z.div_small by lia. lia.
  - rewrite (Z.add_comm (_ * _)), Z.mod_add by lia.
    rewrite Z.mod_small by lia. lia.
Qed.

Lemma length_grid (f : Z → Z → B) N :
  0 ≤ N → length (r ← range N; c ← range N; [f r c]) = Z.to_nat (N * N).
Proof. intros. rewrite grid_flat by done. unfold range. by rewrite length_fmap, length_seqZ. Qed.

Lemma lookup_grid (f : Z → Z → B) N r c :
  0 ≤ r < N → 0 ≤ c < N →
  (r ← range N; c ← range N; [f r c]) !! Z.to_nat (r * N + c) = Some (f r c).
Proof.
  intros Hr Hc. rewrite grid_flat by lia. unfold range.
  rewrite list_lookup_fmap, lookup_seqZ_lt by nia. simpl.
  rewrite Z2Nat.id by nia. rewrite Z.add_0_l. f_equal. f_equal.
  - rewrite (Z.add_comm (_ * _)), Z.div_add, Z.div_small by lia. lia.
  - rewrite (Z.add_comm (_ * _)), Z.mod_add, Z.mod_small by lia. lia.
Qed.

Lemma lookup_grid_number (f : Z → Z → B) N v :
  0 ≤ N → 0 ≤ v < N * N →
  (r ← range N; c ← range N; [f r c]) !! Z.to_nat v
  = Some (f (v `div` N) (v `mod` N)).
Proof.
  intros HN Hv. rewrite grid_flat by done. unfold range.
  rewrite list_lookup_fmap, lookup_seqZ_lt by lia. simpl.
  rewrite Z2Nat.id by lia. by rewrite Z.add_0_l.
Qed.

Lemma index_nonneg (l : list A) i : 0 ≤ i → index l i = l !! Z.to_nat i.
Proof. intros. unfold index. by rewrite bool_decide_eq_true_2. Qed.

Lemma mapM_total (f : A → option B) (g : A → B) (l : list A) :
  (∀ x, x ∈ l → f x = Some (g x)) → mapM f l = Some (g <$> l).
Proof.
  intros H. apply mapM_Some_2. induction l as [|x l IH]; csimpl; constructor.
  - apply H. by left.
  - apply IH. intros y Hy. apply H. by right.
Qed.

Lemma sum_singletons (g : A → string) (l : list A) :
  Dimod.sum ((λ x, Dimod.Binary (g x)) <$> l) = g <$> l.
Proof. unfold Dimod.sum. induction l as [|x l IH]; csimpl; [done|]. by rewrite IH. Qed.

End Comprehensions.

Section Dict.

Import Py.
Context `{Countable K} {A : Type}.

Lemma dict_of_snoc (kvs : list (K * A)) kv :
  dict_of (kvs ++ [kv]) = <[kv.1 := kv.2]> (dict_of kvs).
Proof. unfold dict_of. by rewrite foldl_snoc. Qed.

(** When every item stores [g] of its key, the dictionary maps each
    stored key [k] to [g k]. *)
Lemma dict_of_lookup (g : K → A) (kvs : list (K * A)) k :
  Forall (λ kv, kv.2 = g kv.1) kvs →
  dict_of kvs !! k = if bool_decide (k ∈ kvs.*1) then Some (g k) else None.
Proof.
  induction kvs as [|[k' v] kvs IH] using rev_ind; intros Hall.
  - done.
  - apply Forall_app in Hall as [Hall Hkv]. apply Forall_cons_1 in Hkv as [Hkv _].
    rewrite dict_of_snoc, fmap_app. simpl in Hkv |- *. subst v.
    destruct (decide (k' = k)) as [->|Hne].
    + rewrite lookup_insert_eq, bool_decide_eq_true_2; [done|].
      apply elem_of_app. right. by left.
    + rewrite lookup_insert_ne, IH by done.
      destruct (decide (k ∈ kvs.*1)) as [Hin|Hnin].
      * rewrite !bool_decide_eq_true_2; [done| |done].
        apply elem_of_app. by left.
      * rewrite !bool_decide_eq_false_2; [done| |done].
        rewrite elem_of_app, list_elem_of_singleton. by intros [?|?].
Qed.

End Dict.

(** ** The number grids and their diagonals *)

Section Grids.

Import Py.

Variable N : Z.

Lemma lookup_vnum_row r :
  0 ≤ r < N → vnum N !! Z.to_nat r = Some ((λ c, r * N + c) <$> range N).
Proof.
  intros Hr. unfold vnum, range.
  rewrite list_lookup_fmap, lookup_seqZ_lt by lia. simpl.
  by rewrite Z2Nat.id, Z.add_0_l by lia.
Qed.

Lemma get_vnum r c : 0 ≤ r < N → 0 ≤ c < N → Np.get (vnum N) r c = r * N + c.
Proof.
  intros Hr Hc. unfold Np.get.
  rewrite (list_lookup_total_correct _ _ _ (lookup_vnum_row r Hr)).
  apply list_lookup_total_correct. unfold range.
  rewrite list_lookup_fmap, lookup_seqZ_lt by lia. simpl.
  by rewrite Z2Nat.id, Z.add_0_l by lia.
Qed.

Lemma get_rvnum r c :
  0 ≤ r < N → 0 ≤ c < N → Np.get (rvnum N) r c = r * N + (N - 1 - c).
Proof.
  intros Hr Hc. unfold Np.get, rvnum, Np.flip_columns.
  erewrite (list_lookup_total_correct (reverse <$> vnum N)); last first.
  { rewrite list_lookup_fmap, (lookup_vnum_row r Hr). done. }
  apply list_lookup_total_correct. unfold range.
  rewrite reverse_lookup; rewrite length_fmap, length_seqZ; [|lia].
  rewrite list_lookup_fmap, lookup_seqZ_lt by lia. simpl.
  f_equal. lia.
Qed.

Lemma nrows_vnum : 0 ≤ N → Np.nrows (vnum N) = N.
Proof.
  intros. unfold Np.nrows, vnum, range. rewrite length_fmap, length_seqZ. lia.
Qed.

Lemma ncols_vnum : 1 ≤ N → Np.ncols (vnum N) = N.
Proof.
  intros. unfold Np.ncols, vnum, range. rewrite seqZ_cons by lia.
  rewrite !fmap_cons. cbn [head default]. unfold id. rewrite length_cons.
  rewrite length_fmap, length_seqZ. lia.
Qed.

Lemma nrows_rvnum : 0 ≤ N → Np.nrows (rvnum N) = N.
Proof.
  intros. unfold Np.nrows, rvnum, Np.flip_columns.
  rewrite length_fmap. by apply nrows_vnum.
Qed.

Lemma ncols_rvnum : 1 ≤ N → Np.ncols (rvnum N) = N.
Proof.
  intros. unfold Np.ncols, rvnum, Np.flip_columns, vnum, range.
  rewrite seqZ_cons by lia. rewrite !fmap_cons. cbn [head default]. unfold id.
  rewrite length_reverse, length_cons, length_fmap, length_seqZ. lia.
Qed.

(** The offsets used by the script. *)
Definition offsets : list Z := range2 (- (N - 2)) (N - 1).

(** The squares of a diagonal by their coordinates: [rc_diag col k]
    lists the numbers of the squares [(i, col (i + k))], or
    [(i - k, col i)] when [k] is negative. *)
Definition rc_diag (col : Z → Z) (k : Z) : list Z :=
  if bool_decide (0 ≤ k)
  then (λ i, i * N + col (i + k)) <$> range (N - k)
  else (λ i, (i - k) * N + col i) <$> range (N + k).

Lemma diag_vnum k : 1 ≤ N → Np.diag (vnum N) k = rc_diag id k.
Proof.
  intros HN. unfold Np.diag, rc_diag.
  rewrite nrows_vnum, ncols_vnum by lia. case_bool_decide.
  - rewrite Z.min_r by lia. apply list_fmap_ext.
    intros i x [-> Hx]%lookup_seqZ. apply get_vnum; unfold id; lia.
  - rewrite Z.min_l by lia. apply list_fmap_ext.
    intros i x [-> Hx]%lookup_seqZ. apply get_vnum; unfold id; lia.
Qed.

Lemma diag_rvnum k : 1 ≤ N → Np.diag (rvnum N) k = rc_diag (λ c, N - 1 - c) k.
Proof.
  intros HN. unfold Np.diag, rc_diag.
  rewrite nrows_rvnum, ncols_rvnum by lia. case_bool_decide.
  - rewrite Z.min_r by lia. apply list_fmap_ext.
    intros i x [-> Hx]%lookup_seqZ. apply get_rvnum; lia.
  - rewrite Z.min_l by lia. apply list_fmap_ext.
    intros i x [-> Hx]%lookup_seqZ. apply get_rvnum; lia.
Qed.

Lemma foldl_snoc_fmap {A B} (f : A → B) (l : list A) (acc : list B) :
  foldl (λ acc x, acc ++ [f x]) acc l = acc ++ (f <$> l).
Proof.
  revert acc. induction l as [|x l IH]; intros acc; simpl.
  - by rewrite app_nil_r.
  - by rewrite IH, <-app_assoc.
Qed.

Lemma diags_offsets :
  diags N = (Np.diag (vnum N) <$> offsets) ++ (Np.diag (rvnum N) <$> offsets).
Proof. unfold diags. simpl. by rewrite !foldl_snoc_fmap. Qed.

Lemma diags_rc : 1 ≤ N →
  diags N = (rc_diag id <$> offsets) ++ (rc_diag (λ c, N - 1 - c) <$> offsets).
Proof.
  intros HN. rewrite diags_offsets. f_equal; apply list_fmap_ext; intros.
  - by apply diag_vnum.
  - by apply diag_rvnum.
Qed.

Lemma length_rc_diag col k : length (rc_diag col k) = Z.to_nat (N - Z.abs k).
Proof.
  unfold rc_diag, range. case_bool_decide; rewrite length_fmap, length_seqZ; lia.
Qed.

(** Membership in a diagonal, by coordinates. *)
Lemma elem_of_rc_diag col k r c :
  (∀ c, 0 ≤ c < N → 0 ≤ col c < N) →
  0 ≤ r < N → 0 ≤ c < N →
  r * N + c ∈ rc_diag col k ↔ ∃ j, 0 ≤ j < N ∧ col j = c ∧ j - r = k.
Proof.
  intros Hcol Hr Hc. unfold rc_diag, range.
  case_bool_decide; rewrite list_elem_of_fmap; setoid_rewrite elem_of_seqZ.
  - split.
    + intros (i & E & Hi). specialize (Hcol (i + k)).
      assert (r = i) by nia. exists (i + k). split; [lia|]. split; nia.
    + intros (j & Hj & <- & <-). exists r. split; [|lia].
      by replace (r + (j - r)) with j by lia.
  - split.
    + intros (i & E & Hi). specialize (Hcol i).
      assert (r = i - k) by nia. exists i. split; [lia|]. split; nia.
    + intros (j & Hj & <- & <-). exists j. split; [|lia].
      by replace (j - (j - r)) with r by lia.
Qed.

Lemma rc_diag_bounds col k v :
  (∀ c, 0 ≤ c < N → 0 ≤ col c < N) →
  v ∈ rc_diag col k → 0 ≤ v < N * N.
Proof.
  intros Hcol. unfold rc_diag, range.
  case_bool_decide; rewrite list_elem_of_fmap; setoid_rewrite elem_of_seqZ.
  - intros (i & -> & Hi). specialize (Hcol (i + k)). nia.
  - intros (i & -> & Hi). specialize (Hcol i). nia.
Qed.

End Grids.

(** ** The model in closed form *)

Section Model.

Import Py Dimod.

Variables (NQ N : Z).

(** The variable of the square with row-major number [v]. *)
Definition square (v : Z) : string := varname (v `div` N) (v `mod` N).

Definition total_constraint : constraint :=
  Constraint "board_total" (eq_cmp (vlabels N) NQ).
Definition col_constraint (c : Z) : constraint :=
  Constraint (col_label c) (le_cmp ((λ r, varname r c) <$> range N) 1).
Definition row_constraint (r : Z) : constraint :=
  Constraint (row_label r) (le_cmp ((λ c, varname r c) <$> range N) 1).
Definition diag_constraint (id : Z * list Z) : constraint :=
  Constraint (diag_label id.1) (le_cmp (square <$> id.2) 1).

Definition model : CQM :=
  Model (total_constraint
           :: (col_constraint <$> range N)
           ++ (row_constraint <$> range N)
           ++ (diag_constraint <$> enumerate (diags N)))
        None.

Lemma variables_lookup r c :
  0 ≤ r < N → 0 ≤ c < N →
  index (variables N) (r * N + c) = Some (Binary (varname r c)).
Proof.
  intros Hr Hc. rewrite index_nonneg by nia.
  by apply (lookup_grid (λ r c, Binary (varname r c))).
Qed.

Lemma variables_lookup_number v :
  0 ≤ N → 0 ≤ v < N * N → index (variables N) v = Some (Binary (square v)).
Proof.
  intros HN Hv. rewrite index_nonneg by lia.
  by apply (lookup_grid_number (λ r c, Binary (varname r c))).
Qed.

(** The dictionary [board] maps the coordinates of each square to
    its variable, and holds nothing else. *)
Lemma board_lookup :
  ∃ b, board N = Some b ∧
    ∀ r c, b !! (r, c) =
      if bool_decide ((0 ≤ r < N) ∧ (0 ≤ c < N))
      then Some (Binary (varname r c)) else None.
Proof.
  unfold board.
  erewrite (mapM_total _ (λ p : Z * Z, ((p.2, p.1), Binary (varname p.2 p.1)))).
  2:{ intros [c r] (c' & Hin & Hc)%list_elem_of_bind.
      apply list_elem_of_bind in Hin as (r' & Hin & Hr).
      apply list_elem_of_singleton in Hin. simplify_eq.
      apply elem_of_seqZ in Hc, Hr.
      rewrite variables_lookup by lia. done. }
  eexists. split; [done|]. intros r c.
  rewrite (dict_of_lookup (λ p : Z * Z, Binary (varname p.1 p.2))).
  2:{ apply Forall_fmap, Forall_true. by intros [??]. }
  rewrite <-list_fmap_compose.
  destruct (decide ((0 ≤ r < N) ∧ (0 ≤ c < N))) as [[Hr Hc]|Hn].
  - rewrite !bool_decide_eq_true_2; [done|done|].
    apply list_elem_of_fmap. exists (c, r). split; [done|].
    apply list_elem_of_bind. exists c. split; [|apply elem_of_seqZ; lia].
    apply list_elem_of_bind. exists r. split; [by left|apply elem_of_seqZ; lia].
  - rewrite !bool_decide_eq_false_2; [done|done|].
    intros ([c' r'] & E & (c'' & Hin & Hc)%list_elem_of_bind)%list_elem_of_fmap.
    apply list_elem_of_bind in Hin as (r'' & Hin & Hr).
    apply list_elem_of_singleton in Hin. simplify_eq/=.
    apply elem_of_seqZ in Hc, Hr. lia.
Qed.

Lemma add_constraint_fresh cmp lab m :
  cmp_lhs cmp ≠ [] → lab ∉ labels m →
  add_constraint cmp lab m
  = Some (Model (constraints m ++ [Constraint lab cmp]) (objective m)).
Proof.
  intros. unfold add_constraint. by rewrite !bool_decide_eq_false_2.
Qed.

(** A loop of [add_constraint] calls with fresh, pairwise distinct
    labels appends one constraint per item. *)
Lemma for_each_add {A} (F : A → option (list lin)) (G : A → lin)
    (lab : A → string) (l : list A) (m : CQM) :
  (∀ x, x ∈ l → sum <$> F x = Some (G x) ∧ G x ≠ []) →
  NoDup (lab <$> l) →
  (∀ x, x ∈ l → lab x ∉ labels m) →
  for_each (λ cqm x, e ← F x; add_constraint (le_cmp (sum e) 1) (lab x) cqm)
           m l
  = Some (Model (constraints m
                   ++ ((λ x, Constraint (lab x) (le_cmp (G x) 1)) <$> l))
                (objective m)).
Proof.
  revert m. induction l as [|x l IH]; intros m HF Hnd Hfresh.
  - simpl. rewrite app_nil_r. by destruct m.
  - rewrite fmap_cons in Hnd. apply NoDup_cons in Hnd as [Hx Hnd].
    destruct (HF x) as [HFx Hne]; [by left|].
    destruct (F x) as [e|] eqn:HFe; [|done]. injection HFx as HFx.
    cbn [for_each]. rewrite HFe. simpl. rewrite HFx.
    rewrite add_constraint_fresh; [|done|apply Hfresh; by left]. simpl.
    rewrite IH; [| |done|].
    + simpl. by rewrite <-app_assoc.
    + intros y Hy. apply HF. by right.
    + intros y Hy. unfold labels. simpl. rewrite fmap_app, elem_of_app.
      intros [Hin|Hin%list_elem_of_singleton].
      * apply (Hfresh y); [by right|done].
      * apply Hx. simpl in Hin. rewrite <-Hin. by apply list_elem_of_fmap_2.
Qed.

Lemma enumerate_fst {A} (l : list A) :
  (enumerate l).*1 = Z.of_nat <$> seq 0 (length l).
Proof. unfold enumerate. rewrite fmap_imap. apply (imap_seq_0 l Z.of_nat). Qed.

Lemma enumerate_lookup {A} (l : list A) i x :
  enumerate l !! i = Some x ↔ x.1 = Z.of_nat i ∧ l !! i = Some x.2.
Proof.
  unfold enumerate. rewrite list_lookup_imap. destruct x as [j y].
  destruct (l !! i) as [z|]; simpl; split.
  - by intros [= <- <-].
  - by intros [-> [= ->]].
  - done.
  - by intros [_ ?].
Qed.

Lemma diags_elem d :
  1 ≤ N → d ∈ diags N →
  ∃ col k, (∀ c, 0 ≤ c < N → 0 ≤ col c < N) ∧ - (N - 2) ≤ k < N - 1 ∧
           d = rc_diag N col k.
Proof.
  intros HN. rewrite diags_rc by done. unfold offsets, range2.
  rewrite elem_of_app, !list_elem_of_fmap. setoid_rewrite elem_of_seqZ.
  intros [(k & -> & Hk)|(k & -> & Hk)].
  - exists id, k. split; [done|]. split; [lia|done].
  - exists (λ c, N - 1 - c), k. split; [intros; lia|]. split; [lia|done].
Qed.

Lemma diags_length d : 1 ≤ N → d ∈ diags N → (2 ≤ length d)%nat.
Proof.
  intros HN (col & k & _ & Hk & ->)%diags_elem; [|done].
  rewrite length_rc_diag. lia.
Qed.

Lemma diags_bounds d v : 1 ≤ N → d ∈ diags N → v ∈ d → 0 ≤ v < N * N.
Proof.
  intros HN (col & k & Hcol & Hk & ->)%diags_elem; [|done].
  by apply rc_diag_bounds.
Qed.

Lemma vlabels_flat : 0 ≤ N → vlabels N = square <$> range (N * N).
Proof. intros. unfold vlabels. by rewrite grid_flat. Qed.

Lemma range_nonempty {A} (f : Z → A) n : 1 ≤ n → f <$> range n ≠ [].
Proof. intros Hn E. apply (f_equal length) in E. unfold range in E. rewrite length_fmap, length_seqZ in E. simpl in E. lia. Qed.

Lemma label_total_col c : col_label c ≠ "board_total".
Proof. done. Qed.
Lemma label_total_row r : row_label r ≠ "board_total".
Proof. done. Qed.
Lemma label_total_diag i : diag_label i ≠ "board_total".
Proof. done. Qed.
Lemma label_col_row c r : row_label r ≠ col_label c.
Proof. done. Qed.
Lemma label_col_diag c i : diag_label i ≠ col_label c.
Proof. done. Qed.
Lemma label_row_diag r i : diag_label i ≠ row_label r.
Proof. done. Qed.

(** The script builds the model above. *)
Lemma build_model : 1 ≤ N → build NQ N = Some model.
Proof.
  intros HN. unfold build.
  destruct board_lookup as (b & -> & Hb). simpl.
  assert (Hin : ∀ r c, 0 ≤ r < N → 0 ≤ c < N →
                  b !! (r, c) = Some (Binary (varname r c))).
  { intros r c Hr Hc. rewrite Hb. by rewrite bool_decide_eq_true_2. }
  rewrite (mapM_total _ (λ p : Z * Z, Binary (varname p.1 p.2))).
  2:{ intros [r c] (r' & Hi & Hr)%list_elem_of_bind.
      apply list_elem_of_bind in Hi as (c' & Hi & Hc).
      apply list_elem_of_singleton in Hi. simplify_eq.
      apply elem_of_seqZ in Hc, Hr. simpl. apply Hin; lia. }
  simpl. rewrite (sum_singletons (λ p : Z * Z, varname p.1 p.2)).
  rewrite grid_flat, <-list_fmap_compose by lia.
  change (_ ∘ _) with square. rewrite <-vlabels_flat by lia.
  rewrite add_constraint_fresh; [|rewrite vlabels_flat by lia; by apply range_nonempty; nia|by inv 1].
  simpl.
  rewrite (for_each_add _ (λ c, (λ r, varname r c) <$> range N) col_label).
  2:{ intros c Hc%elem_of_seqZ. split; [|by apply range_nonempty].
      rewrite (mapM_total _ (λ r, Binary (varname r c))).
      - simpl. by rewrite (sum_singletons (λ r, varname r c)).
      - intros r Hr%elem_of_seqZ. apply Hin; lia. }
  2:{ apply (NoDup_fmap_2 _), NoDup_seqZ. }
  2:{ intros c _. unfold labels. simpl. rewrite list_elem_of_singleton.
      apply label_total_col. }
  simpl.
  rewrite (for_each_add _ (λ r, (λ c, varname r c) <$> range N) row_label).
  2:{ intros r Hr%elem_of_seqZ. split; [|by apply range_nonempty].
      rewrite (mapM_total _ (λ c, Binary (varname r c))).
      - simpl. by rewrite (sum_singletons (λ c, varname r c)).
      - intros c Hc%elem_of_seqZ. apply Hin; lia. }
  2:{ apply (NoDup_fmap_2 _), NoDup_seqZ. }
  2:{ intros r _. unfold labels. simpl.
      rewrite elem_of_cons, <-list_fmap_compose, list_elem_of_fmap.
      intros [E|(c & E & _)]; [by apply label_total_row in E|].
      by apply label_col_row in E. }
  simpl.
  rewrite (for_each_add _ (λ id, square <$> id.2) (λ id, diag_label id.1)).
  2:{ intros [i d] (j & [_ Hd]%enumerate_lookup)%list_elem_of_lookup.
      simpl in Hd. apply list_elem_of_lookup_2 in Hd. simpl. split.
      - rewrite (mapM_total _ (λ v, Binary (square v))).
        + simpl. by rewrite (sum_singletons square).
        + intros v Hv. apply variables_lookup_number; [lia|].
          by apply (diags_bounds d).
      - intros E. apply (f_equal length) in E. rewrite length_fmap in E.
        pose proof (diags_length d HN Hd). simpl in E. lia. }
  2:{ replace ((λ id : Z * list Z, diag_label id.1) <$> enumerate (diags N))
        with (diag_label <$> (enumerate (diags N)).*1)
        by (by rewrite <-list_fmap_compose).
      rewrite enumerate_fst, <-list_fmap_compose.
      apply (NoDup_fmap_2 _), NoDup_seq. }
  2:{ intros [i d] _. unfold labels. simpl.
      rewrite elem_of_cons, fmap_app, elem_of_app, <-!list_fmap_compose, !list_elem_of_fmap.
      intros [E|[(c & E & _)|(r & E & _)]].
      - by apply label_total_diag in E.
      - by apply label_col_diag in E.
      - by apply label_row_diag in E. }
  unfold model. simpl. by rewrite <-app_assoc.
Qed.

End Model.

(** ** The geometry of the diagonal groups *)

Section Geometry.

Import Py.

Variable N : Z.

(** The offset of the [j]-th group of [diags]: the groups of the
    plain grid come first, one per offset, then those of the mirrored
    grid. *)
Definition group_offset (j : nat) : Z :=
  if bool_decide (Z.of_nat j < 2 * N - 3)
  then Z.of_nat j - (N - 2)
  else Z.of_nat j - (2 * N - 3) - (N - 2).

(** The square [(r, c)] lies on the board diagonal of the [j]-th
    group: [c - r] is constant along a diagonal of the first
    orientation, [r + c] along one of the second. *)
Definition on_diagonal (j : nat) (r c : Z) : Prop :=
  if bool_decide (Z.of_nat j < 2 * N - 3)
  then c - r = group_offset j
  else r + c = N - 1 - group_offset j.

Lemma length_offsets : 2 ≤ N → length (offsets N) = Z.to_nat (2 * N - 3).
Proof. intros. unfold offsets, range2. rewrite length_seqZ. lia. Qed.

Lemma length_diags : 2 ≤ N → length (diags N) = Z.to_nat (2 * (2 * N - 3)).
Proof.
  intros. rewrite diags_offsets, length_app, !length_fmap, length_offsets by lia.
  lia.
Qed.

Lemma diags_lookup j g :
  2 ≤ N → diags N !! j = Some g →
  - (N - 2) ≤ group_offset j ≤ N - 2 ∧
  g = rc_diag N (if bool_decide (Z.of_nat j < 2 * N - 3)
                 then id else λ c, N - 1 - c) (group_offset j).
Proof.
  intros HN. rewrite diags_rc by lia. unfold group_offset.
  destruct (decide (j < length (rc_diag N id <$> offsets N))%nat) as [Hj|Hj].
  - rewrite lookup_app_l by done. rewrite length_fmap, length_offsets in Hj by done.
    rewrite bool_decide_eq_true_2 by lia.
    rewrite list_lookup_fmap. unfold offsets, range2.
    rewrite lookup_seqZ_lt by lia. simpl. intros [= <-].
    split; [lia|]. f_equal. lia.
  - rewrite lookup_app_r by lia. rewrite length_fmap, length_offsets in Hj |- * by done.
    rewrite bool_decide_eq_false_2 by lia.
    rewrite list_lookup_fmap. unfold offsets, range2.
    intros Hg. destruct (seqZ _ _ !! _) as [k|] eqn:Hk; [|done].
    apply lookup_seqZ in Hk as [-> Hk]. simpl in Hg. injection Hg as <-.
    split; [lia|]. f_equal. lia.
Qed.

(** A group holds exactly the squares of its board diagonal. *)
Lemma diags_member j g r c :
  2 ≤ N → diags N !! j = Some g → 0 ≤ r < N → 0 ≤ c < N →
  r * N + c ∈ g ↔ on_diagonal j r c.
Proof.
  intros HN Hg Hr Hc. destruct (diags_lookup j g HN Hg) as [Hk ->].
  unfold on_diagonal. case_bool_decide.
  - rewrite elem_of_rc_diag by done. unfold id. split.
    + by intros (i & _ & -> & ?).
    + intros ?. exists c. split; [lia|]. split; [done|lia].
  - rewrite elem_of_rc_diag by (done || intros; lia). split.
    + intros (i & _ & <- & ?). lia.
    + intros ?. exists (N - 1 - c). repeat split; lia.
Qed.

Lemma length_filter_fmap_le_1 {A B} (f : A → B) (P : B → Prop)
    `{∀ y, Decision (P y)} `{EqDecision A} (l : list A) (x0 : A) :
  NoDup l → (∀ x, x ∈ l → P (f x) → x = x0) →
  (length (filter P (f <$> l)) ≤ if bool_decide (x0 ∈ l) then 1 else 0)%nat.
Proof.
  induction 1 as [|x l Hx Hnd IH]; intros HP; [done|].
  rewrite fmap_cons, filter_cons.
  assert (IH' := IH (λ y Hy, HP y (list_elem_of_further _ _ _ Hy))).
  destruct (decide (P (f x))) as [HPx|HPx].
  - assert (x = x0) as -> by (apply HP; [by left|done]).
    rewrite bool_decide_eq_false_2 in IH' by done.
    rewrite bool_decide_eq_true_2 by (by left). simpl. lia.
  - etrans; [apply IH'|]. repeat case_bool_decide; try lia.
    exfalso. match goal with Hn : _ ∉ _ :: _ |- _ => apply Hn end. by right.
Qed.

(** A square lies in at most one group of each orientation. *)
Lemma diags_at_most_two r c :
  2 ≤ N → 0 ≤ r < N → 0 ≤ c < N →
  (length (filter (λ g, (r * N + c)%Z ∈ g) (diags N)) ≤ 2)%nat.
Proof.
  intros HN Hr Hc. rewrite diags_rc, filter_app, length_app by lia.
  pose proof (length_filter_fmap_le_1 (rc_diag N id) (λ g, r * N + c ∈ g)
                (offsets N) (c - r)) as H1.
  pose proof (length_filter_fmap_le_1 (rc_diag N (λ c, N - 1 - c))
                (λ g, r * N + c ∈ g) (offsets N) (N - 1 - c - r)) as H2.
  assert (∀ b : bool, ((if b then 1 else 0) ≤ 1)%nat) as Hb by (intros []; lia).
  etrans; [apply Nat.add_le_mono|].
  - etrans; [apply H1|apply Hb].
    + apply NoDup_seqZ.
    + intros k _. rewrite elem_of_rc_diag by done. unfold id.
      intros (i & _ & -> & ?). lia.
  - etrans; [apply H2|apply Hb].
    + apply NoDup_seqZ.
    + intros k _. rewrite elem_of_rc_diag by (done || intros; lia).
      intros (i & _ & <- & ?). lia.
  - done.
Qed.

End Geometry.

Lemma filter_none {A} (P : A → Prop) `{∀ x, Decision (P x)} (l : list A) :
  (∀ x, x ∈ l → ¬ P x) → filter P l = [].
Proof.
  induction l as [|x l IH]; intros Hl; [done|].
  rewrite filter_cons_False by (apply Hl; by left).
  apply IH. intros y Hy. apply Hl. by right.
Qed.

Lemma labels_model NQ N :
  Dimod.labels (model NQ N)
  = "board_total"%string
    :: (col_label <$> Py.range N) ++ (row_label <$> Py.range N)
    ++ (diag_label <$> (Z.of_nat <$> seq 0 (length (diags N)))).
Proof.
  rewrite <-enumerate_fst.
  unfold Dimod.labels, model. cbn [Dimod.constraints].
  by rewrite fmap_cons, !fmap_app, <-!list_fmap_compose.
Qed.

Lemma NoDup_labels_model NQ N : NoDup (Dimod.labels (model NQ N)).
Proof.
  rewrite labels_model. apply NoDup_cons. split.
  - rewrite !elem_of_app, !list_elem_of_fmap.
    intros [(c & E & _)|[(r & E & _)|(i & E & _)]].
    + by apply (label_total_col c).
    + by apply (label_total_row r).
    + by apply (label_total_diag i).
  - apply NoDup_app. split; [apply (NoDup_fmap_2 _), NoDup_seqZ|]. split.
    + intros x (c & -> & _)%list_elem_of_fmap.
      rewrite elem_of_app, !list_elem_of_fmap.
      intros [(r & E & _)|(i & E & _)].
      * by apply (label_col_row c r).
      * by apply (label_col_diag c i).
    + apply NoDup_app. split; [apply (NoDup_fmap_2 _), NoDup_seqZ|]. split.
      * intros x (r & -> & _)%list_elem_of_fmap (i & E & _)%list_elem_of_fmap.
        by apply (label_row_diag r i).
      * rewrite <-list_fmap_compose. apply (NoDup_fmap_2 _), NoDup_seq.
Qed.

Lemma square_number N r c :
  0 ≤ r < N → 0 ≤ c < N → square N (r * N + c) = varname r c.
Proof.
  intros Hr Hc. unfold square. f_equal.
  - rewrite (Z.add_comm (_ * _)), Z.div_add, Z.div_small by lia. lia.
  - rewrite (Z.add_comm (_ * _)), Z.mod_add, Z.mod_small by lia. lia.
Qed.

Lemma diags_1 : diags 1 = [].
Proof. reflexivity. Qed.

(** ** Sums of values *)

Section Sums.

Import Dimod.

(** The sum of [f] over a list. *)
Definition zsum {A} (f : A → Z) (l : list A) : Z :=
  foldr (λ x acc, f x + acc) 0 l.

Lemma zsum_cons {A} (f : A → Z) x l : zsum f (x :: l) = f x + zsum f l.
Proof. done. Qed.

Lemma zsum_app {A} (f : A → Z) l k : zsum f (l ++ k) = zsum f l + zsum f k.
Proof. induction l as [|x l IH]; simpl; [done|]. rewrite IH. lia. Qed.

Lemma zsum_ext {A} (f g : A → Z) l :
  (∀ x, x ∈ l → f x = g x) → zsum f l = zsum g l.
Proof.
  induction l as [|x l IH]; intros H; simpl; [done|].
  rewrite (H x), IH; [done| |by left]. intros y Hy. apply H. by right.
Qed.

Lemma zsum_nonneg {A} (f : A → Z) l : (∀ x, x ∈ l → 0 ≤ f x) → 0 ≤ zsum f l.
Proof.
  induction l as [|x l IH]; intros H; simpl; [done|].
  assert (0 ≤ f x) by (apply H; by left).
  assert (0 ≤ zsum f l) by (apply IH; intros y Hy; apply H; by right). lia.
Qed.

Lemma zsum_le_length {A} (f : A → Z) l :
  (∀ x, x ∈ l → f x ≤ 1) → zsum f l ≤ Z.of_nat (length l).
Proof.
  induction l as [|x l IH]; intros H; simpl; [done|].
  assert (f x ≤ 1) by (apply H; by left).
  assert (zsum f l ≤ Z.of_nat (length l)) by (apply IH; intros y Hy; apply H; by right).
  lia.
Qed.

Lemma zsum_elem {A} (f : A → Z) l x :
  (∀ y, y ∈ l → 0 ≤ f y) → x ∈ l → f x ≤ zsum f l.
Proof.
  intros H Hx. apply list_elem_of_split in Hx as (l1 & l2 & ->).
  rewrite zsum_app, zsum_cons.
  assert (0 ≤ zsum f l1) by (apply zsum_nonneg; intros y Hy; apply H, elem_of_app; by left).
  assert (0 ≤ zsum f l2).
  { apply zsum_nonneg. intros y Hy. apply H, elem_of_app. right. by right. }
  lia.
Qed.

Lemma eval_cons (s : gmap string Z) x e :
  eval s (x :: e) = v ← s !! x; t ← eval s e; Some (v + t).
Proof. done. Qed.

(** The value of a sum of variables is the sum of their values, when
    the sample defines them all. *)
Lemma eval_fmap {A} (s : gmap string Z) (f : A → string) (l : list A) t :
  eval s (f <$> l) = Some t ↔
  (∀ x, x ∈ l → is_Some (s !! f x)) ∧ t = zsum (λ x, default 0 (s !! f x)) l.
Proof.
  revert t. induction l as [|x l IH]; intros t.
  - split; [intros [= <-]; split; [by inv 1|done]|by intros [_ ->]].
  - rewrite fmap_cons, eval_cons, zsum_cons.
    destruct (s !! f x) as [v|] eqn:Hv; simpl.
    + destruct (eval s (f <$> l)) as [u|] eqn:Hu; simpl.
      * destruct (proj1 (IH u) eq_refl) as [Hall ->]. split.
        -- intros [= <-]. split; [|done].
           intros y [->|Hy]%elem_of_cons; [by rewrite Hv|by apply Hall].
        -- by intros [_ ->].
      * split; [done|]. intros [Hall _]. exfalso.
        assert (None = Some (zsum (λ x, default 0 (s !! f x)) l)) as E; [|done].
        apply IH. split; [|done]. intros y Hy. apply Hall. by right.
    + split; [done|]. intros [Hall _]. destruct (Hall x) as [? E]; [by left|].
      by rewrite Hv in E.
Qed.

Lemma eval_defined (s : gmap string Z) (e : list string) t x :
  eval s e = Some t → x ∈ e → is_Some (s !! x).
Proof.
  rewrite <-(list_fmap_id e) at 1. intros [H _]%eval_fmap Hx. by apply H.
Qed.

End Sums.

(** ** The text printed by the report *)

(** ** Ranking the rows of a sample set *)

Section Rows.

Import Dimod.

Variable ss : sampleset.

Lemma elem_of_rows_at indices x : x ∈ rows_at ss indices → x ∈ ss.
Proof.
  intros (k & _ & Hk)%list_elem_of_omap. by apply list_elem_of_lookup_2 in Hk.
Qed.

Lemma rows_at_app l1 l2 : rows_at ss (l1 ++ l2) = rows_at ss l1 ++ rows_at ss l2.
Proof. apply omap_app. Qed.

(** Indices of the set select one row each. *)
Lemma rows_at_lookup indices (i : nat) :
  Forall (λ k, (k < length ss)%nat) indices →
  rows_at ss indices !! i = indices !! i ≫= (ss !!.).
Proof.
  intros Hall. revert i. induction Hall as [|k l Hk _ IH]; intros i; [done|].
  apply lookup_lt_is_Some_2 in Hk as [x Hx].
  unfold rows_at in *. cbn [omap list_omap]. rewrite Hx.
  destruct i as [|i]; simpl; [done|apply IH].
Qed.

Lemma length_rows_at indices :
  Forall (λ k, (k < length ss)%nat) indices →
  length (rows_at ss indices) = length indices.
Proof.
  induction 1 as [|k l Hk _ IH]; [done|].
  apply lookup_lt_is_Some_2 in Hk as [x Hx].
  unfold rows_at in *. cbn [omap list_omap]. rewrite Hx. simpl. by rewrite IH.
Qed.

Lemma rows_at_seq : rows_at ss (seq 0 (length ss)) = ss.
Proof.
  apply list_eq. intros i. rewrite rows_at_lookup.
  - destruct (decide (i < length ss)%nat) as [Hi|Hi].
    + by rewrite lookup_seq_lt.
    + rewrite lookup_seq_ge by lia. simpl. symmetry. apply lookup_ge_None. lia.
  - apply Forall_seq. lia.
Qed.

Variable argsort : list Qc → list nat.
Hypothesis Hsort : Np.is_argsort argsort.

Lemma ranking_perm : ranking argsort ss ≡ₚ seq 0 (length ss).
Proof.
  unfold ranking. destruct (Hsort (energy <$> ss)) as [Hp _].
  by rewrite length_fmap in Hp.
Qed.

Lemma ranking_valid : Forall (λ k, (k < length ss)%nat) (ranking argsort ss).
Proof. rewrite ranking_perm. apply Forall_seq. lia. Qed.

Lemma ranking_sorted (i j a b : nat) x y :
  (i ≤ j)%nat → ranking argsort ss !! i = Some a → ranking argsort ss !! j = Some b →
  ss !! a = Some x → ss !! b = Some y → (energy x ≤ energy y)%Qc.
Proof.
  intros Hij Ha Hb Hx Hy. destruct (Hsort (energy <$> ss)) as [_ Hs].
  apply (Hs i j a b); [done..| |]; rewrite list_lookup_fmap; [by rewrite Hx|by rewrite Hy].
Qed.

(** Iterating over a set visits every row once, by energy. *)
Lemma iter_perm : iter argsort ss ≡ₚ ss.
Proof.
  rewrite <-rows_at_seq at 2. unfold iter, rows_at. by rewrite ranking_perm.
Qed.

Lemma iter_sorted (i j : nat) x y :
  (i ≤ j)%nat → iter argsort ss !! i = Some x → iter argsort ss !! j = Some y →
  (energy x ≤ energy y)%Qc.
Proof.
  unfold iter. rewrite !rows_at_lookup by apply ranking_valid.
  intros Hij (a & Ha & Hx)%bind_Some (b & Hb & Hy)%bind_Some.
  by apply (ranking_sorted i j a b).
Qed.

(** Truncating a set keeps the rows of least energy. *)
Lemma length_truncate n :
  length (truncate argsort n ss) = (Z.to_nat n `min` length ss)%nat.
Proof.
  unfold truncate. rewrite length_rows_at by apply Forall_take, ranking_valid.
  by rewrite length_take, ranking_perm, length_seq.
Qed.

Lemma truncate_least n :
  ∃ dropped, ss ≡ₚ truncate argsort n ss ++ dropped ∧
    ∀ x y, x ∈ truncate argsort n ss → y ∈ dropped → (energy x ≤ energy y)%Qc.
Proof.
  exists (rows_at ss (drop (Z.to_nat n) (ranking argsort ss))). split.
  - unfold truncate. rewrite <-rows_at_app, take_drop. symmetry. apply iter_perm.
  - unfold truncate.
    intros x y (a & [i Ha]%list_elem_of_lookup & Hx)%list_elem_of_omap
               (b & [j Hb]%list_elem_of_lookup & Hy)%list_elem_of_omap.
    apply lookup_take_Some in Ha as [Ha Hi]. rewrite lookup_drop in Hb.
    apply (ranking_sorted i (Z.to_nat n + j) a b); [lia|done..].
Qed.

End Rows.

(** ** The stable sort is one of the sorts that numpy may run *)

Section StableSort.

Lemma StronglySorted_lookup {A} (R : relation A) (l : list A) (i j : nat) x y :
  StronglySorted R l → (i < j)%nat → l !! i = Some x → l !! j = Some y → R x y.
Proof.
  intros Hl. revert i j. induction Hl as [|z l _ IH Hz]; intros i j Hij Hx Hy; [done|].
  destruct j as [|j]; [lia|]. destruct i as [|i]; simpl in *.
  - injection Hx as ->. rewrite Forall_forall in Hz. apply Hz.
    by apply list_elem_of_lookup_2 in Hy.
  - apply (IH i j); [lia|done..].
Qed.

Global Instance key_le_trans : Transitive Np.key_le.
Proof. intros p q r. unfold Np.key_le. apply Qcle_trans. Qed.

Global Instance key_le_total : Total Np.key_le.
Proof. intros p q. unfold Np.key_le. apply (total Qcle). Qed.

Lemma stable_argsort_spec : Np.is_argsort Np.stable_argsort.
Proof.
  intros keys. unfold Np.stable_argsort.
  set (pairs := zip (seq 0 (length keys)) keys).
  assert (Hperm : merge_sort Np.key_le pairs ≡ₚ pairs)
    by apply merge_sort_Permutation.
  assert (Hkeys : Forall (λ p, keys !! p.1 = Some p.2) (merge_sort Np.key_le pairs)).
  { rewrite Hperm. apply Forall_lookup. intros i [a x] Hi. subst pairs.
    apply lookup_zip_with_Some in Hi as (a' & x' & [= -> ->] & Ha & Hx).
    apply lookup_seq in Ha as [-> _]. done. }
  assert (Hsorted : StronglySorted Np.key_le (merge_sort Np.key_le pairs))
    by apply (StronglySorted_merge_sort _).
  split.
  - rewrite Hperm. subst pairs. by rewrite fst_zip by (by rewrite length_seq).
  - intros i j a b x y Hij Ha Hb Hx Hy.
    rewrite list_lookup_fmap in Ha, Hb.
    destruct (merge_sort Np.key_le pairs !! i) as [[a' x']|] eqn:Hi; [|done].
    destruct (merge_sort Np.key_le pairs !! j) as [[b' y']|] eqn:Hj; [|done].
    simpl in Ha, Hb. simplify_eq.
    rewrite Forall_lookup in Hkeys.
    pose proof (Hkeys i _ Hi) as Hx'. pose proof (Hkeys j _ Hj) as Hy'.
    simpl in Hx', Hy'. simplify_eq.
    destruct (decide (i = j)) as [->|Hne]; [by simplify_eq|].
    apply (StronglySorted_lookup Np.key_le (merge_sort Np.key_le pairs) i j (a, x) (b, y));
      [done|lia|done..].
Qed.

End StableSort.

Section ReportText.

Import Py Dimod IO.

Variable N : Z.
Variable table : list sample → string.
Variable argsort : list Qc → list nat.

Lemma print_run text e out : print text e out = (out +:+ text +:+ e, Some tt).
Proof. done. Qed.

Lemma bind_run {A B} (m : io A) (k : A → io B) out out' x :
  m out = (out', Some x) → (m ≫= k) out = k x out'.
Proof. intros Hm. unfold mbind, io_bind. by rewrite Hm. Qed.

(** A loop whose body prints [text x] prints the texts end to end. *)
Lemma for_each_run {A} (body : A → io unit) (text : A → string) l out :
  (∀ x out, x ∈ l → body x out = (out +:+ text x, Some tt)) →
  for_each body l out = (out +:+ join text l, Some tt).
Proof.
  revert out. induction l as [|x l IH]; intros out Hbody; simpl.
  - by rewrite append_nil_r.
  - erewrite bind_run; [|apply Hbody; by left].
    rewrite IH by (intros; apply Hbody; by right).
    by rewrite append_assoc.
Qed.

Lemma complete_lookup s r c :
  complete N s → 0 ≤ r < N → 0 ≤ c < N → is_Some (values s !! varname r c).
Proof.
  unfold complete. rewrite Forall_forall. intros Hs Hr Hc. apply Hs.
  unfold vlabels. apply list_elem_of_bind. exists r.
  split; [|apply elem_of_seqZ; lia].
  apply list_elem_of_bind. exists c. split; [by left|apply elem_of_seqZ; lia].
Qed.

Lemma print_square_run s r c out :
  is_Some (values s !! varname r c) →
  print_square s r c out
  = (out +:+ square_text (default 0 (values s !! varname r c)), Some tt).
Proof.
  intros [v Hv]. unfold print_square, lift, mbind, io_bind. rewrite Hv. simpl.
  unfold print, square_text. by rewrite append_nil_r.
Qed.

Lemma print_row_run s r out :
  complete N s → 0 ≤ r < N →
  print_row N s r out = (out +:+ row_text N s r, Some tt).
Proof.
  intros Hs Hr. unfold print_row.
  erewrite bind_run; last first.
  { apply (for_each_run _ (λ c, square_text (default 0 (values s !! varname r c)))).
    intros c out' Hc%elem_of_seqZ. apply print_square_run.
    apply complete_lookup; [done|lia..]. }
  rewrite print_run. unfold row_text. by rewrite !append_assoc.
Qed.

Lemma print_board_run i_s out :
  complete N i_s.2 →
  print_board N i_s out = (out +:+ board_text N i_s, Some tt).
Proof.
  intros Hs. unfold print_board.
  erewrite bind_run; [|apply print_run].
  erewrite bind_run; last first.
  { apply (for_each_run _ (row_text N i_s.2)).
    intros r out' Hr%elem_of_seqZ. apply print_row_run; [done|lia]. }
  rewrite print_run. unfold board_text. by rewrite !append_assoc.
Qed.

(** Printing only adds to the text printed so far. *)
Definition extends {A} (m : io A) : Prop :=
  ∀ out, ∃ rest, (m out).1 = out +:+ rest.

Lemma extends_ret {A} (x : A) : extends (mret x).
Proof. intros out. exists ""%string. simpl. by rewrite append_nil_r. Qed.

Lemma extends_lift {A} (o : option A) : extends (lift o).
Proof. intros out. exists ""%string. simpl. by rewrite append_nil_r. Qed.

Lemma extends_print text e : extends (print text e).
Proof. intros out. by exists (text +:+ e). Qed.

Lemma extends_bind {A B} (m : io A) (k : A → io B) :
  extends m → (∀ x, extends (k x)) → extends (m ≫= k).
Proof.
  intros Hm Hk out. destruct (Hm out) as [rest Hrest].
  unfold mbind, io_bind. destruct (m out) as [out' [x|]]; simpl in *; subst.
  - destruct (Hk x (out +:+ rest)) as [rest' ->].
    exists (rest +:+ rest'). by rewrite append_assoc.
  - by exists rest.
Qed.

Lemma extends_for_each {A} (body : A → io unit) l :
  (∀ x, extends (body x)) → extends (for_each body l).
Proof.
  intros Hbody. induction l as [|x l IH]; simpl.
  - apply extends_ret.
  - by apply extends_bind.
Qed.

Lemma extends_print_board i_s : extends (print_board N i_s).
Proof.
  unfold print_board.
  apply extends_bind; [apply extends_print|intros _].
  apply extends_bind; [|intros _; apply extends_print].
  apply extends_for_each. intros r. unfold print_row.
  apply extends_bind; [|intros _; apply extends_print].
  apply extends_for_each. intros c. unfold print_square.
  apply extends_bind; [apply extends_lift|intros v; apply extends_print].
Qed.

(** The samples retained by the report, and those whose boards it
    prints, in the order of printing. *)
Definition retained (raw_sampleset : list sample) : list sample :=
  let feasible_sampleset := filter_feasible raw_sampleset in
  let num_feasible := Z.of_nat (length feasible_sampleset) in
  if bool_decide (0 < num_feasible)
  then truncate argsort (Z.min 10 num_feasible) feasible_sampleset
  else truncate argsort 10 raw_sampleset.

Definition rendered (raw_sampleset : list sample) : list sample :=
  iter argsort (retained raw_sampleset).

(** The line of the count, the warning when nothing is feasible, and
    the banner. *)
Definition count_line (raw_sampleset : list sample) : string :=
  str (Z.of_nat (length (filter_feasible raw_sampleset)))
  +:+ " Feasible samples" +:+ nl.

Definition warning_line (raw_sampleset : list sample) : string :=
  if bool_decide (0 < Z.of_nat (length (filter_feasible raw_sampleset)))
  then ""
  else "Warning: Did not find feasible solution" +:+ nl.

Definition banner : string :=
  " " +:+ nl
  +:+ "==============================BEST SAMPLE SET=============================="
  +:+ nl.

Lemma retained_raw raw x : x ∈ retained raw → x ∈ raw.
Proof.
  unfold retained. case_bool_decide; intros Hx%elem_of_rows_at; [|done].
  by apply list_elem_of_filter in Hx as [_ Hx].
Qed.

Lemma rendered_raw raw x : x ∈ rendered raw → x ∈ raw.
Proof. intros Hx%elem_of_rows_at. by apply retained_raw. Qed.

Lemma report_first raw out :
  ∃ rest, (report N table argsort raw out).1 = out +:+ count_line raw +:+ rest.
Proof.
  unfold report. erewrite bind_run; [|apply print_run].
  match goal with |- ∃ rest, (?m ?o).1 = _ =>
    assert (extends m) as Hext;
      [|destruct (Hext o) as [rest Hrest]; exists rest; rewrite Hrest]
  end.
  - apply extends_bind.
    + case_bool_decide; [apply extends_ret|].
      apply extends_bind; [apply extends_print|intros _; apply extends_ret].
    + intros best. apply extends_bind; [apply extends_print|intros _].
      apply extends_bind; [apply extends_print|intros _].
      apply extends_for_each, extends_print_board.
  - unfold count_line. by rewrite !append_assoc.
Qed.

Lemma report_run raw out :
  Forall (complete N) (rendered raw) →
  report N table argsort raw out
  = (out +:+ count_line raw +:+ warning_line raw +:+ banner
     +:+ table (retained raw) +:+ nl
     +:+ join (board_text N) (enumerate (rendered raw)), Some tt).
Proof.
  intros Hall. unfold report.
  erewrite bind_run; [|apply print_run].
  erewrite (bind_run _ _ _ (_ +:+ warning_line raw) (retained raw)); last first.
  { unfold retained, warning_line. case_bool_decide.
    - simpl. by rewrite append_nil_r.
    - erewrite bind_run; [|apply print_run]. simpl.
      by rewrite !append_assoc. }
  erewrite bind_run; [|apply print_run].
  erewrite bind_run; [|apply print_run].
  rewrite (for_each_run _ (board_text N)).
  - unfold count_line, banner. by rewrite !append_assoc.
  - intros [i s] out' [j [_ Hs]%enumerate_lookup]%list_elem_of_lookup.
    apply print_board_run. simpl in *.
    rewrite Forall_forall in Hall. apply Hall.
    by apply list_elem_of_lookup_2 in Hs.
Qed.

End ReportText.

(** ** Feasibility as sums over the board *)

Section Feasibility.

Import Py Dimod.

Variables (NQ N : Z).
Variable s : gmap string Z.

(** The value of a variable, 0 when the sample has none. *)
Definition value (x : string) : Z := default 0 (s !! x).

Lemma zsum_fmap {A B} (f : B → Z) (g : A → B) l :
  zsum f (g <$> l) = zsum (λ x, f (g x)) l.
Proof.
  induction l as [|x l IH]; [done|].
  rewrite fmap_cons, !zsum_cons. by rewrite IH.
Qed.

Lemma zsum_bind {A B} (f : B → Z) (k : A → list B) l :
  zsum f (l ≫= k) = zsum (λ x, zsum f (k x)) l.
Proof.
  induction l as [|x l IH]; [done|].
  by rewrite bind_cons, zsum_app, zsum_cons, IH.
Qed.

Lemma zsum_vlabels :
  zsum value (vlabels N)
  = zsum (λ r, zsum (λ c, value (varname r c)) (range N)) (range N).
Proof.
  unfold vlabels. rewrite zsum_bind. apply zsum_ext. intros r _.
  by rewrite bind_ret_fmap, zsum_fmap.
Qed.

(** The sample gives a value to every square variable. *)
Definition defined : Prop := ∀ x, x ∈ vlabels N → is_Some (s !! x).

Lemma defined_varname r c :
  defined → 0 ≤ r < N → 0 ≤ c < N → is_Some (s !! varname r c).
Proof.
  intros Hs Hr Hc. apply Hs.
  unfold vlabels. apply list_elem_of_bind. exists r.
  split; [|apply elem_of_seqZ; lia].
  apply list_elem_of_bind. exists c. split; [by left|apply elem_of_seqZ; lia].
Qed.

Lemma defined_square v : defined → 0 ≤ N → 0 ≤ v < N * N → is_Some (s !! square N v).
Proof.
  intros Hs HN Hv. apply Hs. rewrite vlabels_flat by done.
  apply list_elem_of_fmap_2, elem_of_seqZ. lia.
Qed.

Lemma holds_le {A} (f : A → string) (l : list A) b :
  (∀ x, x ∈ l → is_Some (s !! f x)) →
  holds s (le_cmp (f <$> l) b) ↔ zsum (λ x, value (f x)) l ≤ b.
Proof.
  intros Hdef. unfold holds. simpl. split.
  - by intros (t & [_ ->]%eval_fmap & Ht).
  - intros Hle. eexists. split; [|exact Hle]. by apply eval_fmap.
Qed.

Lemma holds_eq {A} (f : A → string) (l : list A) b :
  (∀ x, x ∈ l → is_Some (s !! f x)) →
  holds s (eq_cmp (f <$> l) b) ↔ zsum (λ x, value (f x)) l = b.
Proof.
  intros Hdef. unfold holds. simpl. split.
  - by intros (t & [_ ->]%eval_fmap & Ht).
  - intros Hle. eexists. split; [|exact Hle]. by apply eval_fmap.
Qed.

(** The four families of constraints, as sums of values. *)
Definition total_sum : Prop :=
  zsum (λ r, zsum (λ c, value (varname r c)) (range N)) (range N) = NQ.
Definition col_sums : Prop :=
  ∀ c, 0 ≤ c < N → zsum (λ r, value (varname r c)) (range N) ≤ 1.
Definition row_sums : Prop :=
  ∀ r, 0 ≤ r < N → zsum (λ c, value (varname r c)) (range N) ≤ 1.
Definition diag_sums : Prop :=
  ∀ d, d ∈ diags N → zsum (λ v, value (square N v)) d ≤ 1.

Lemma satisfies_defined : 1 ≤ N → satisfies s (model NQ N) → defined.
Proof.
  intros HN Hsat x Hx. unfold satisfies, model in Hsat.
  cbn [constraints] in Hsat. apply Forall_cons_1 in Hsat as [(t & Ht & _) _].
  by apply (eval_defined s (vlabels N) t).
Qed.

Lemma satisfies_sums :
  1 ≤ N → defined →
  satisfies s (model NQ N) ↔ total_sum ∧ col_sums ∧ row_sums ∧ diag_sums.
Proof.
  intros HN Hdef. unfold satisfies, model. cbn [constraints].
  rewrite Forall_cons, !Forall_app, !Forall_fmap, !Forall_forall.
  unfold total_constraint, col_constraint, row_constraint, diag_constraint.
  cbn [c_cmp compose].
  rewrite <-(list_fmap_id (vlabels N)), holds_eq by done.
  change (λ x, value (id x)) with value. rewrite zsum_vlabels.
  apply and_iff_compat_l.
  match goal with |- ?C ∧ ?R ∧ ?D ↔ _ =>
    cut ((C ↔ col_sums) ∧ (R ↔ row_sums) ∧ (D ↔ diag_sums)); [tauto|]
  end.
  split; [|split].
  - unfold col_sums. setoid_rewrite elem_of_seqZ. split.
    + intros H c Hc. apply (holds_le (λ r, varname r c)); [|apply H; lia].
      intros r Hr%elem_of_seqZ. apply defined_varname; [done|lia..].
    + intros H c Hc. apply (holds_le (λ r, varname r c)); [|apply H; lia].
      intros r Hr%elem_of_seqZ. apply defined_varname; [done|lia..].
  - unfold row_sums. setoid_rewrite elem_of_seqZ. split.
    + intros H r Hr. apply (holds_le (λ c, varname r c)); [|apply H; lia].
      intros c Hc%elem_of_seqZ. apply defined_varname; [done|lia..].
    + intros H r Hr. apply (holds_le (λ c, varname r c)); [|apply H; lia].
      intros c Hc%elem_of_seqZ. apply defined_varname; [done|lia..].
  - unfold diag_sums. split.
    + intros H d [j Hd]%list_elem_of_lookup.
      apply (holds_le (square N)).
      * intros v Hv. apply defined_square; [done|lia|].
        apply (diags_bounds N d); [done| |done].
        by apply list_elem_of_lookup_2 in Hd.
      * apply (H (Z.of_nat j, d)). apply list_elem_of_lookup. exists j.
        by apply enumerate_lookup.
    + intros H [i d] [j [_ Hd]%enumerate_lookup]%list_elem_of_lookup.
      simpl in Hd |- *. apply list_elem_of_lookup_2 in Hd.
      apply (holds_le (square N)); [|by apply H].
      intros v Hv. apply defined_square; [done|lia|].
      by apply (diags_bounds N d).
Qed.

End Feasibility.

(** ** Counting the queen markers of a printed board *)

Section Markers.

Import Py Dimod IO.

Variable N : Z.
Variable s : sample.

(** Every square variable with a value has the value 0 or 1. *)
Definition binary (N : Z) (vs : gmap string Z) : Prop :=
  ∀ x v, x ∈ vlabels N → vs !! x = Some v → v = 0 ∨ v = 1.

Lemma count_join {A} a (text : A → string) l :
  Z.of_nat (count a (join text l))
  = zsum (λ x, Z.of_nat (count a (text x))) l.
Proof.
  induction l as [|x l IH]; [done|].
  rewrite zsum_cons, <-IH. unfold join. cbn [foldr]. rewrite count_app. lia.
Qed.

Lemma count_square_text v :
  v = 0 ∨ v = 1 → Z.of_nat (count "W"%char (square_text v)) = v.
Proof. by intros [-> | ->]. Qed.

Lemma binary_value r c :
  binary N (values s) → 0 ≤ r < N → 0 ≤ c < N →
  value (values s) (varname r c) = 0 ∨ value (values s) (varname r c) = 1.
Proof.
  intros Hbin Hr Hc. unfold value.
  destruct (values s !! varname r c) as [v|] eqn:Hv; [|by left].
  apply (Hbin (varname r c)); [|done].
  unfold vlabels. apply list_elem_of_bind. exists r.
  split; [|apply elem_of_seqZ; lia].
  apply list_elem_of_bind. exists c. split; [by left|apply elem_of_seqZ; lia].
Qed.

Lemma count_row_text r :
  binary N (values s) → 0 ≤ r < N →
  Z.of_nat (count "W"%char (row_text N s r))
  = zsum (λ c, value (values s) (varname r c)) (range N).
Proof.
  intros Hbin Hr. unfold row_text. rewrite count_app, Nat2Z.inj_add, count_join.
  change (Z.of_nat (count "W"%char ("|" +:+ nl))) with 0. rewrite Z.add_0_r.
  apply zsum_ext. intros c Hc%elem_of_seqZ.
  apply count_square_text, binary_value; [done|lia..].
Qed.

Lemma count_column_text c :
  binary N (values s) → 0 ≤ c < N →
  Z.of_nat (count "W"%char
    (join (λ r, square_text (default 0 (values s !! varname r c))) (range N)))
  = zsum (λ r, value (values s) (varname r c)) (range N).
Proof.
  intros Hbin Hc. rewrite count_join.
  apply zsum_ext. intros r Hr%elem_of_seqZ.
  apply count_square_text, binary_value; [done|lia..].
Qed.

Lemma count_board_text i :
  binary N (values s) →
  Z.of_nat (count "W"%char (board_text N (i, s)))
  = zsum (λ r, zsum (λ c, value (values s) (varname r c)) (range N)) (range N).
Proof.
  intros Hbin. unfold board_text. cbn [fst snd].
  rewrite !count_app, (count_str "W"%char) by apply not_numeric_W.
  rewrite !Nat2Z.inj_add, count_join.
  change (Z.of_nat (count "W"%char "Result ")) with 0.
  change (Z.of_nat (count "W"%char "    =====================")) with 0.
  change (Z.of_nat (count "W"%char "=================================")) with 0.
  change (Z.of_nat (count "W"%char nl)) with 0.
  simpl (Z.of_nat 0). rewrite !Z.add_0_l, !Z.add_0_r.
  apply zsum_ext. intros r Hr%elem_of_seqZ. apply count_row_text; [done|lia].
Qed.

End Markers.

(** ** Sums of zeros and ones *)

Section ZeroOne.

Context {A : Type} `{EqDecision A}.
Variable f : A → Z.

Lemma zsum_zero (l : list A) : (∀ x, x ∈ l → f x = 0) → zsum f l = 0.
Proof.
  induction l as [|x l IH]; intros H; simpl; [done|].
  rewrite (H x), IH; [done| |by left]. intros y Hy. apply H. by right.
Qed.

Lemma zsum_ones (l : list A) :
  (∀ x, x ∈ l → f x = 1) → zsum f l = Z.of_nat (length l).
Proof.
  induction l as [|x l IH]; intros H; simpl; [done|].
  rewrite (H x), IH; [lia| |by left]. intros y Hy. apply H. by right.
Qed.

(** Two distinct members of the list count twice. *)
Lemma zsum_two (l : list A) x y :
  (∀ z, z ∈ l → 0 ≤ f z) → x ∈ l → y ∈ l → x ≠ y → f x + f y ≤ zsum f l.
Proof.
  intros Hpos Hx Hy Hne. apply list_elem_of_split in Hx as (l1 & l2 & ->).
  assert (Hpos1 : ∀ z, z ∈ l1 → 0 ≤ f z).
  { intros z Hz. apply Hpos, elem_of_app. by left. }
  assert (Hpos2 : ∀ z, z ∈ l2 → 0 ≤ f z).
  { intros z Hz. apply Hpos, elem_of_app. right. by right. }
  rewrite zsum_app, zsum_cons.
  pose proof (zsum_nonneg f l1 Hpos1). pose proof (zsum_nonneg f l2 Hpos2).
  apply elem_of_app in Hy as [Hy|[->|Hy]%elem_of_cons]; [|done|].
  - pose proof (zsum_elem f l1 y Hpos1 Hy). lia.
  - pose proof (zsum_elem f l2 y Hpos2 Hy). lia.
Qed.

(** When every value is at most 1 and the sum is the length, every
    value is 1. *)
Lemma zsum_full (l : list A) x :
  (∀ z, z ∈ l → f z ≤ 1) → zsum f l = Z.of_nat (length l) → x ∈ l → f x = 1.
Proof.
  intros Hle Hsum Hx. apply list_elem_of_split in Hx as (l1 & l2 & ->).
  rewrite zsum_app, zsum_cons, length_app in Hsum. simpl in Hsum.
  assert (zsum f l1 ≤ Z.of_nat (length l1)).
  { apply zsum_le_length. intros z Hz. apply Hle, elem_of_app. by left. }
  assert (zsum f l2 ≤ Z.of_nat (length l2)).
  { apply zsum_le_length. intros z Hz. apply Hle, elem_of_app. right. by right. }
  assert (f x ≤ 1) by (apply Hle, elem_of_app; right; by left). lia.
Qed.

(** A positive sum of zeros and ones has a one. *)
Lemma zsum_pos_one (l : list A) :
  (∀ z, z ∈ l → f z = 0 ∨ f z = 1) → 0 < zsum f l → ∃ x, x ∈ l ∧ f x = 1.
Proof.
  induction l as [|x l IH]; intros Hbin Hpos; simpl in *; [lia|].
  destruct (Hbin x) as [H0|H1]; [by left| |].
  - destruct IH as (y & Hy & Hfy); [|lia|].
    + intros z Hz. apply Hbin. by right.
    + exists y. split; [by right|done].
  - exists x. split; [by left|done].
Qed.

(** On a list without repetition, a sum of zeros and ones is at most
    1 exactly when at most one member has the value 1. *)
Lemma zsum_at_most_one (l : list A) :
  NoDup l → (∀ z, z ∈ l → f z = 0 ∨ f z = 1) →
  zsum f l ≤ 1 ↔ ∀ x y, x ∈ l → y ∈ l → f x = 1 → f y = 1 → x = y.
Proof.
  intros Hnd Hbin.
  assert (Hpos : ∀ z, z ∈ l → 0 ≤ f z).
  { intros z Hz. destruct (Hbin z Hz); lia. }
  split.
  - intros Hle x y Hx Hy Hfx Hfy.
    destruct (decide (x = y)) as [|Hne]; [done|].
    pose proof (zsum_two l x y Hpos Hx Hy Hne). lia.
  - clear Hpos. induction Hnd as [|x l Hx Hnd IH]; intros Huniq; simpl; [lia|].
    destruct (Hbin x) as [H0|H1]; [by left| |].
    + rewrite H0. simpl. apply IH.
      * intros z Hz. apply Hbin. by right.
      * intros y z Hy Hz. apply Huniq; by right.
    + rewrite H1, zsum_zero; [lia|]. intros y Hy.
      destruct (Hbin y) as [|H1y]; [by right|done|].
      exfalso. apply Hx. rewrite (Huniq x y); [done|by left|by right|done..].
Qed.

End ZeroOne.

(** ** Feasible samples and placements of queens *)

Section Queens.

Import Py Dimod.

Variable N : Z.

(** The sample of a placement with a queen in column [q r] of each
    row [r]: 1 on the squares of the queens, 0 on the others. *)
Definition board_sample (q : Z → Z) : gmap string Z :=
  list_to_map
    ((λ v, (square N v,
            if bool_decide (v `mod` N = q (v `div` N)) then 1 else 0))
       <$> range (N * N)).

(** An assignment of 0 or 1 to the square variables, and to nothing
    else. *)
Definition assignment (s : gmap string Z) : Prop :=
  dom s = list_to_set (vlabels N) ∧ binary N s.

(** One queen in every row, no two of them in one column or on one
    diagonal. *)
Definition queens_ok (q : Z → Z) : Prop :=
  (∀ r, 0 ≤ r < N → 0 ≤ q r < N) ∧
  ∀ r1 r2, 0 ≤ r1 < N → 0 ≤ r2 < N → r1 ≠ r2 →
    q r1 ≠ q r2 ∧ q r2 - q r1 ≠ r2 - r1 ∧ q r1 - q r2 ≠ r2 - r1.

Lemma NoDup_vlabels : 0 ≤ N → NoDup (vlabels N).
Proof.
  intros HN. rewrite vlabels_flat by done.
  apply NoDup_fmap_2_strong; [|apply NoDup_seqZ].
  intros v w Hv%elem_of_seqZ Hw%elem_of_seqZ [Hd Hm]%varname_inj.
  destruct (decide (N = 0)) as [->|]; [lia|].
  rewrite (Z.div_mod v N), (Z.div_mod w N) by lia. congruence.
Qed.

Lemma elem_of_vlabels x :
  x ∈ vlabels N ↔ ∃ r c, 0 ≤ r < N ∧ 0 ≤ c < N ∧ x = varname r c.
Proof.
  unfold vlabels. rewrite list_elem_of_bind. split.
  - intros (r & (c & ->%list_elem_of_singleton & Hc%elem_of_seqZ)%list_elem_of_bind
              & Hr%elem_of_seqZ).
    exists r, c. split; [lia|]. split; [lia|done].
  - intros (r & c & Hr & Hc & ->). exists r. split; [|apply elem_of_seqZ; lia].
    apply list_elem_of_bind. exists c. split; [by left|apply elem_of_seqZ; lia].
Qed.

Lemma board_sample_lookup q r c :
  0 ≤ r < N → 0 ≤ c < N →
  board_sample q !! varname r c = Some (if bool_decide (c = q r) then 1 else 0).
Proof.
  intros Hr Hc. unfold board_sample. apply elem_of_list_to_map_1.
  - rewrite <-list_fmap_compose.
    change (fst ∘ _) with (square N). rewrite <-vlabels_flat by lia.
    apply NoDup_vlabels. lia.
  - apply list_elem_of_fmap. exists (r * N + c). split; [|apply elem_of_seqZ; nia].
    rewrite square_number by done. f_equal.
    rewrite (Z.add_comm (_ * _)), Z.mod_add, Z.mod_small by lia.
    by rewrite Z.div_add, Z.div_small, Z.add_0_l by lia.
Qed.

Lemma board_sample_dom q : 0 ≤ N → dom (board_sample q) = list_to_set (vlabels N).
Proof.
  intros HN. unfold board_sample. rewrite dom_list_to_map_L.
  by rewrite <-list_fmap_compose, vlabels_flat.
Qed.

Lemma board_sample_assignment q : 0 ≤ N → assignment (board_sample q).
Proof.
  intros HN. split; [by apply board_sample_dom|].
  intros x v (r & c & Hr & Hc & ->)%elem_of_vlabels.
  rewrite board_sample_lookup by done. intros [= <-]. case_bool_decide; auto.
Qed.

Lemma board_sample_value q r c :
  0 ≤ r < N → 0 ≤ c < N →
  value (board_sample q) (varname r c) = if bool_decide (c = q r) then 1 else 0.
Proof. intros. unfold value. by rewrite board_sample_lookup. Qed.

Lemma assignment_defined s : assignment s → defined N s.
Proof.
  intros [Hdom _] x Hx. apply elem_of_dom. rewrite Hdom.
  by apply elem_of_list_to_set.
Qed.

(** An assignment is the sample of the placement [q] when its value
    on each square says whether the queen of the row is there. *)
Lemma assignment_board_sample s q :
  0 ≤ N → assignment s →
  (∀ r c, 0 ≤ r < N → 0 ≤ c < N →
     value s (varname r c) = if bool_decide (c = q r) then 1 else 0) →
  s = board_sample q.
Proof.
  intros HN Hs Hval. apply map_eq. intros x.
  destruct (decide (x ∈ vlabels N)) as [Hx|Hx].
  - destruct (assignment_defined s Hs x Hx) as [v Hv]. rewrite Hv.
    apply elem_of_vlabels in Hx as (r & c & Hr & Hc & ->).
    rewrite board_sample_lookup by done. f_equal.
    rewrite <-Hval by done. unfold value. by rewrite Hv.
  - trans (@None Z).
    + apply not_elem_of_dom. destruct Hs as [-> _].
      by rewrite elem_of_list_to_set.
    + symmetry. apply not_elem_of_dom. rewrite board_sample_dom by done.
      by rewrite elem_of_list_to_set.
Qed.

Lemma NoDup_rc_diag col k :
  (∀ c, 0 ≤ c < N → 0 ≤ col c < N) → NoDup (rc_diag N col k).
Proof.
  intros Hcol. unfold rc_diag, range. case_bool_decide.
  - apply NoDup_fmap_2_strong; [|apply NoDup_seqZ].
    intros i j Hi%elem_of_seqZ Hj%elem_of_seqZ E.
    pose proof (Hcol (i + k)). pose proof (Hcol (j + k)). nia.
  - apply NoDup_fmap_2_strong; [|apply NoDup_seqZ].
    intros i j Hi%elem_of_seqZ Hj%elem_of_seqZ E.
    pose proof (Hcol i). pose proof (Hcol j). nia.
Qed.

(** The members of a diagonal, by their coordinates. *)
Lemma rc_diag_squares col k v :
  1 ≤ N → (∀ c, 0 ≤ c < N → 0 ≤ col c < N) → v ∈ rc_diag N col k →
  ∃ r c, 0 ≤ r < N ∧ 0 ≤ c < N ∧ v = r * N + c ∧
         ∃ j, 0 ≤ j < N ∧ col j = c ∧ j - r = k.
Proof.
  intros HN Hcol Hv. pose proof (rc_diag_bounds N col k v Hcol Hv) as Hb.
  exists (v `div` N), (v `mod` N).
  assert (0 ≤ v `div` N < N)
    by (split; [apply Z.div_pos; lia|apply Z.div_lt_upper_bound; lia]).
  assert (0 ≤ v `mod` N < N) by (apply Z.mod_pos_bound; lia).
  assert (v = v `div` N * N + v `mod` N) as Ev
    by (rewrite (Z.mul_comm _ N); apply Z.div_mod; lia).
  split; [done|]. split; [done|]. split; [done|].
  apply (elem_of_rc_diag N col k); [done..|]. by rewrite <-Ev.
Qed.

Lemma diags_orientation d :
  1 ≤ N → d ∈ diags N →
  ∃ k, - (N - 2) ≤ k ≤ N - 2 ∧
       (d = rc_diag N id k ∨ d = rc_diag N (λ c, N - 1 - c) k).
Proof.
  intros HN. rewrite diags_rc by done. unfold offsets, range2.
  rewrite elem_of_app, !list_elem_of_fmap. setoid_rewrite elem_of_seqZ.
  intros [(k & -> & Hk)|(k & -> & Hk)]; exists k; (split; [lia|]); auto.
Qed.

Lemma rc_diag_in_diags k :
  1 ≤ N → - (N - 2) ≤ k ≤ N - 2 →
  rc_diag N id k ∈ diags N ∧ rc_diag N (λ c, N - 1 - c) k ∈ diags N.
Proof.
  intros HN Hk. rewrite diags_rc by done. unfold offsets, range2.
  rewrite !elem_of_app.
  split; [left|right]; apply list_elem_of_fmap_2, elem_of_seqZ; lia.
Qed.

Section Placement.

Variable q : Z → Z.
Hypothesis HN : 1 ≤ N.
Hypothesis Hq : queens_ok q.

Let V (r c : Z) : Z := value (board_sample q) (varname r c).

Lemma placement_row r :
  0 ≤ r < N → zsum (λ c, V r c) (range N) = 1.
Proof.
  intros Hr. destruct Hq as [Hrange _].
  assert (zsum (λ c, V r c) (range N) ≤ 1).
  { apply zsum_at_most_one; [apply NoDup_seqZ|..].
    - intros c Hc%elem_of_seqZ. unfold V.
      rewrite board_sample_value by lia. case_bool_decide; auto.
    - intros c1 c2 Hc1%elem_of_seqZ Hc2%elem_of_seqZ. unfold V.
      rewrite !board_sample_value by lia.
      repeat case_bool_decide; (done || congruence). }
  assert (V r (q r) ≤ zsum (λ c, V r c) (range N)).
  { apply (zsum_elem (λ c, V r c)).
    - intros c Hc%elem_of_seqZ. unfold V.
      rewrite board_sample_value by lia. case_bool_decide; lia.
    - apply elem_of_seqZ. specialize (Hrange r Hr). lia. }
  unfold V in *. rewrite board_sample_value in * by (done || by apply Hrange).
  rewrite bool_decide_eq_true_2 in * by done. lia.
Qed.

Lemma placement_total :
  zsum (λ r, zsum (λ c, V r c) (range N)) (range N) = N.
Proof.
  rewrite zsum_ones.
  - unfold range. rewrite length_seqZ. lia.
  - intros r Hr%elem_of_seqZ. apply placement_row. lia.
Qed.

Lemma placement_col c :
  0 ≤ c < N → zsum (λ r, V r c) (range N) ≤ 1.
Proof.
  intros Hc. destruct Hq as [Hrange Hpair].
  apply zsum_at_most_one; [apply NoDup_seqZ|..].
  - intros r Hr%elem_of_seqZ. unfold V.
    rewrite board_sample_value by lia. case_bool_decide; auto.
  - intros r1 r2 Hr1%elem_of_seqZ Hr2%elem_of_seqZ. unfold V.
    rewrite !board_sample_value by lia.
    repeat case_bool_decide; try done. intros _ _.
    destruct (decide (r1 = r2)) as [|Hne]; [done|].
    destruct (Hpair r1 r2) as [? _]; [lia..|congruence].
Qed.

Lemma placement_diag d :
  d ∈ diags N → zsum (λ v, value (board_sample q) (square N v)) d ≤ 1.
Proof.
  intros Hd. destruct Hq as [Hrange Hpair].
  destruct (diags_orientation d HN Hd) as (k & Hk & Hor).
  assert (∃ col, (∀ c, 0 ≤ c < N → 0 ≤ col c < N) ∧ d = rc_diag N col k ∧
                 (∀ j1 j2 c1 c2, col j1 = c1 → col j2 = c2 →
                    j1 - j2 = c1 - c2 ∨ j1 - j2 = c2 - c1))
    as (col & Hcol & -> & Hslope).
  { destruct Hor as [->| ->].
    - exists id. split; [done|]. split; [done|]. unfold id. intros; lia.
    - exists (λ c, N - 1 - c). split; [intros; lia|]. split; [done|]. intros; lia. }
  assert (Hval : ∀ v, v ∈ rc_diag N col k →
            ∃ r c, 0 ≤ r < N ∧ 0 ≤ c < N ∧ v = r * N + c ∧
                   (∃ j, 0 ≤ j < N ∧ col j = c ∧ j - r = k) ∧
                   value (board_sample q) (square N v)
                   = if bool_decide (c = q r) then 1 else 0).
  { intros v (r & c & Hr & Hc & -> & Hj)%rc_diag_squares; [|done..].
    exists r, c. rewrite square_number, board_sample_value by done. auto 10. }
  apply zsum_at_most_one; [by apply NoDup_rc_diag|..].
  - intros v (r & c & _ & _ & _ & _ & ->)%Hval. case_bool_decide; auto.
  - intros v1 v2 (r1 & c1 & Hr1 & Hc1 & -> & (j1 & _ & Hj1 & Hk1) & ->)%Hval
                 (r2 & c2 & Hr2 & Hc2 & -> & (j2 & _ & Hj2 & Hk2) & ->)%Hval.
    repeat case_bool_decide; try done. intros _ _.
    destruct (decide (r1 = r2)) as [->|Hne]; [congruence|].
    destruct (Hpair r1 r2) as (? & ? & ?); [lia..|].
    destruct (Hslope j1 j2 c1 c2 Hj1 Hj2); lia.
Qed.

(** The sample of a placement of non-attacking queens satisfies the
    model for [N] queens. *)
Lemma placement_satisfies : satisfies (board_sample q) (model N N).
Proof.
  apply satisfies_sums; [done|apply assignment_defined, board_sample_assignment; lia|].
  split; [apply placement_total|]. split; [exact placement_col|].
  split; [|exact placement_diag].
  intros r Hr. pose proof (placement_row r Hr) as Hrow. unfold V in Hrow. lia.
Qed.

End Placement.

(** The column of the queen of a row, read off a sample: the first
    column of the row with the value 1. *)
Definition queen_col (s : gmap string Z) (r : Z) : Z :=
  default 0 (head (filter (λ c, value s (varname r c) = 1) (range N))).

Section Feasible.

Variable s : gmap string Z.
Hypothesis HN : 1 ≤ N.
Hypothesis Hs : assignment s.
Hypothesis Hsat : satisfies s (model N N).

Let V (r c : Z) : Z := value s (varname r c).

Lemma feasible_sums :
  total_sum N N s ∧ col_sums N s ∧ row_sums N s ∧ diag_sums N s.
Proof. apply satisfies_sums; [done|by apply assignment_defined|done]. Qed.

Lemma feasible_binary r c : 0 ≤ r < N → 0 ≤ c < N → V r c = 0 ∨ V r c = 1.
Proof.
  intros Hr Hc. destruct Hs as [_ Hbin]. unfold V, value.
  destruct (assignment_defined s Hs (varname r c)) as [v Hv].
  { apply elem_of_vlabels. by exists r, c. }
  rewrite Hv. apply (Hbin (varname r c)); [|done].
  apply elem_of_vlabels. by exists r, c.
Qed.

Lemma feasible_row r : 0 ≤ r < N → zsum (λ c, V r c) (range N) = 1.
Proof.
  intros Hr. destruct feasible_sums as (Htot & _ & Hrow & _).
  apply (zsum_full (λ r, zsum (λ c, V r c) (range N)) (range N)).
  - intros r' Hr'%elem_of_seqZ. apply Hrow. lia.
  - unfold total_sum in Htot. unfold V. rewrite Htot.
    unfold range. rewrite length_seqZ. lia.
  - apply elem_of_seqZ. lia.
Qed.

Lemma queen_col_spec r :
  0 ≤ r < N →
  0 ≤ queen_col s r < N ∧ V r (queen_col s r) = 1 ∧
  ∀ c, 0 ≤ c < N → V r c = 1 → c = queen_col s r.
Proof.
  intros Hr. pose proof (feasible_row r Hr) as Hrow.
  assert (Hbin : ∀ c, c ∈ range N → V r c = 0 ∨ V r c = 1).
  { intros c Hc%elem_of_seqZ. apply feasible_binary; lia. }
  destruct (zsum_pos_one (λ c, V r c) (range N) Hbin) as (c0 & Hc0 & Hv0); [lia|].
  assert (Huniq : ∀ c1 c2, c1 ∈ range N → c2 ∈ range N →
                    V r c1 = 1 → V r c2 = 1 → c1 = c2).
  { apply (zsum_at_most_one (λ c, V r c)); [apply NoDup_seqZ|done|lia]. }
  unfold queen_col.
  destruct (head (filter (λ c, value s (varname r c) = 1) (range N)))
    as [c1|] eqn:Hhead.
  - apply head_Some in Hhead as [l' Hl'].
    assert (c1 ∈ filter (λ c, value s (varname r c) = 1) (range N)) as Hc1
      by (rewrite Hl'; by left).
    apply list_elem_of_filter in Hc1 as [Hv1 Hc1]. simpl.
    split; [apply elem_of_seqZ in Hc1; lia|]. split; [done|].
    intros c Hc Hv. apply Huniq; [apply elem_of_seqZ; lia|done..].
  - apply head_None in Hhead. exfalso.
    assert (c0 ∈ filter (λ c, value s (varname r c) = 1) (range N)) as Hin
      by (by apply list_elem_of_filter).
    rewrite Hhead in Hin. by apply not_elem_of_nil in Hin.
Qed.

Lemma feasible_value r c :
  0 ≤ r < N → 0 ≤ c < N →
  V r c = if bool_decide (c = queen_col s r) then 1 else 0.
Proof.
  intros Hr Hc. destruct (queen_col_spec r Hr) as (_ & Hq1 & Huniq).
  case_bool_decide as E; [by subst c|].
  destruct (feasible_binary r c Hr Hc) as [|H1]; [done|].
  by destruct E; apply Huniq.
Qed.

Lemma feasible_queens_ok : queens_ok (queen_col s).
Proof.
  destruct feasible_sums as (_ & Hcol & _ & Hdiag).
  split; [intros r Hr; by destruct (queen_col_spec r Hr)|].
  intros r1 r2 Hr1 Hr2 Hne.
  destruct (queen_col_spec r1 Hr1) as (Hc1 & Hv1 & _).
  destruct (queen_col_spec r2 Hr2) as (Hc2 & Hv2 & _).
  assert (Hpos : ∀ d v, d ∈ diags N → v ∈ d → 0 ≤ value s (square N v)).
  { intros d v Hd Hv.
    destruct (diags_elem N d HN Hd) as (col & k & Hcol' & _ & ->).
    apply rc_diag_squares in Hv as (r & c & Hr & Hc & -> & _); [|done..].
    rewrite square_number by done.
    destruct (feasible_binary r c Hr Hc) as [E|E]; unfold V in E; lia. }
  assert (Hsq : ∀ r, 0 ≤ r < N →
            value s (square N (r * N + queen_col s r)) = 1).
  { intros r Hr. destruct (queen_col_spec r Hr) as (Hc & Hv & _).
    by rewrite square_number. }
  assert (Hclash : ∀ d, d ∈ diags N →
            r1 * N + queen_col s r1 ∈ d → r2 * N + queen_col s r2 ∈ d → False).
  { intros d Hd Hin1 Hin2.
    pose proof (zsum_two (λ v, value s (square N v)) d _ _
                  (λ v, Hpos d v Hd) Hin1 Hin2 ltac:(nia)) as Htwo.
    simpl in Htwo. rewrite !Hsq in Htwo by done.
    specialize (Hdiag d Hd). lia. }
  split; [|split].
  - intros E.
    pose proof (zsum_two (λ r, V r (queen_col s r1)) (range N) r1 r2) as Htwo.
    simpl in Htwo. rewrite E in Htwo at 2. rewrite Hv1, Hv2 in Htwo.
    specialize (Hcol (queen_col s r1) Hc1). unfold V in Htwo.
    assert (1 + 1 ≤ 1); [|lia]. etrans; [apply Htwo|exact Hcol].
    + intros r Hr%elem_of_seqZ.
      destruct (feasible_binary r (queen_col s r1) ltac:(lia) Hc1) as [E'|E'];
        unfold V in E'; lia.
    + apply elem_of_seqZ; lia.
    + apply elem_of_seqZ; lia.
    + done.
  - intros E.
    destruct (rc_diag_in_diags (queen_col s r1 - r1) HN) as [Hd _]; [lia|].
    apply (Hclash _ Hd).
    + apply elem_of_rc_diag; [done..|]. exists (queen_col s r1). by unfold id.
    + apply elem_of_rc_diag; [done..|]. exists (queen_col s r2).
      split; [done|]. split; [done|lia].
  - intros E.
    destruct (rc_diag_in_diags (N - 1 - queen_col s r1 - r1) HN) as [_ Hd]; [lia|].
    apply (Hclash _ Hd).
    + apply elem_of_rc_diag; [intros; lia|done..|].
      exists (N - 1 - queen_col s r1). split; [lia|]. split; lia.
    + apply elem_of_rc_diag; [intros; lia|done..|].
      exists (N - 1 - queen_col s r2). split; [lia|]. split; lia.
Qed.

Lemma feasible_board_sample : s = board_sample (queen_col s).
Proof.
  apply assignment_board_sample; [lia|done|]. exact feasible_value.
Qed.

End Feasible.

(** The feasible assignments for [N] queens on a board of side [N]
    are the samples of the placements of non-attacking queens. *)
Lemma feasible_iff_placement s :
  1 ≤ N →
  assignment s ∧ satisfies s (model N N) ↔
  ∃ q, queens_ok q ∧ s = board_sample q.
Proof.
  intros HN. split.
  - intros [Hs Hsat]. exists (queen_col s).
    split; [by apply feasible_queens_ok|by apply feasible_board_sample].
  - intros (q & Hq & ->).
    split; [apply board_sample_assignment; lia|by apply placement_satisfies].
Qed.

End Queens.

(** ** Enumerating the placements *)

Section Backtracking.

Import Py Dimod.

Variable N : Z.

(** [safe p c d]: a queen in column [c] attacks none of the queens of
    [p], the columns of the rows above, nearest row first, the nearest
    being [d] rows away. *)
Fixpoint safe (p : list Z) (c d : Z) : bool :=
  match p with
  | [] => true
  | q :: p => negb (c =? q) && negb (Z.abs (c - q) =? d) && safe p c (d + 1)
  end.

(** The placements of non-attacking queens on the first [k] rows, as
    the lists of their columns, last row first. *)
Fixpoint placements (k : nat) : list (list Z) :=
  match k with
  | O => [[]]
  | S k => p ← placements k; c ← range N; if safe p c 1 then [c :: p] else []
  end.

Definition valid (p : list Z) : Prop :=
  (∀ (i : nat) c, p !! i = Some c → 0 ≤ c < N) ∧
  ∀ (i j : nat) ci cj, (i < j)%nat → p !! i = Some ci → p !! j = Some cj →
    ci ≠ cj ∧ Z.abs (ci - cj) ≠ Z.of_nat j - Z.of_nat i.

Lemma safe_spec p c d :
  safe p c d = true ↔
  ∀ (j : nat) q, p !! j = Some q → c ≠ q ∧ Z.abs (c - q) ≠ d + Z.of_nat j.
Proof.
  revert d. induction p as [|q p IH]; intros d; simpl.
  - split; [by intros _ j q|done].
  - rewrite !andb_true_iff, !negb_true_iff, !Z.eqb_neq, IH. split.
    + intros [[H1 H2] H3] [|j] q'; simpl.
      * intros [= <-]. split; [done|lia].
      * intros Hq. destruct (H3 j q' Hq). split; [done|lia].
    + intros H. split; [split|].
      * by destruct (H 0%nat q eq_refl).
      * destruct (H 0%nat q eq_refl). lia.
      * intros j q' Hq. destruct (H (S j) q' Hq). split; [done|lia].
Qed.

Lemma valid_nil : valid [].
Proof. split; by intros [|?]. Qed.

Lemma valid_cons c p :
  valid (c :: p) ↔ 0 ≤ c < N ∧ safe p c 1 = true ∧ valid p.
Proof.
  rewrite safe_spec. unfold valid. split.
  - intros [Hrange Hpair]. split; [by apply (Hrange 0%nat)|]. split; [|split].
    + intros j q Hq. destruct (Hpair 0%nat (S j) c q); [lia|done..|].
      split; [done|lia].
    + intros i c' Hc'. by apply (Hrange (S i)).
    + intros i j ci cj Hij Hi Hj.
      destruct (Hpair (S i) (S j) ci cj); [lia|done..|]. split; [done|lia].
  - intros (Hc & Hsafe & Hrange & Hpair). split.
    + intros [|i] c'; simpl; [by intros [= <-]|apply Hrange].
    + intros [|i] [|j] ci cj Hij; simpl; try lia.
      * intros [= <-] Hj. destruct (Hsafe j cj Hj). split; [done|lia].
      * intros Hi Hj. destruct (Hpair i j ci cj); [lia|done..|].
        split; [done|lia].
Qed.

Lemma elem_of_placements k p :
  p ∈ placements k ↔ length p = k ∧ valid p.
Proof.
  revert p. induction k as [|k IH]; intros p; simpl.
  - rewrite list_elem_of_singleton. split.
    + intros ->. split; [done|apply valid_nil].
    + intros [Hl _]. by apply nil_length_inv.
  - rewrite list_elem_of_bind. split.
    + intros (p' & (c & Hp & Hc%elem_of_seqZ)%list_elem_of_bind & Hp').
      destruct (safe p' c 1) eqn:Hsafe; [|by apply not_elem_of_nil in Hp].
      apply list_elem_of_singleton in Hp as ->.
      apply IH in Hp' as [Hl Hv]. split; [by rewrite length_cons, Hl|].
      apply valid_cons. split; [lia|done].
    + destruct p as [|c p']; [by intros [? _]|].
      intros [Hl (Hc & Hsafe & Hv)%valid_cons]. exists p'.
      split; [|apply IH; split; [by injection Hl|done]].
      apply list_elem_of_bind. exists c. rewrite Hsafe.
      split; [by left|apply elem_of_seqZ; lia].
Qed.

Lemma NoDup_placements k : NoDup (placements k).
Proof.
  induction k as [|k IH]; simpl; [apply NoDup_singleton|].
  apply NoDup_bind; [| |done].
  - intros p1 p2 p _ _ (c1 & H1 & _)%list_elem_of_bind
                        (c2 & H2 & _)%list_elem_of_bind.
    destruct (safe p1 c1 1); [|by apply not_elem_of_nil in H1].
    destruct (safe p2 c2 1); [|by apply not_elem_of_nil in H2].
    apply list_elem_of_singleton in H1, H2. congruence.
  - intros p _. apply NoDup_bind; [| |apply NoDup_seqZ].
    + intros c1 c2 p' _ _ H1 H2.
      destruct (safe p c1 1); [|by apply not_elem_of_nil in H1].
      destruct (safe p c2 1); [|by apply not_elem_of_nil in H2].
      apply list_elem_of_singleton in H1, H2. congruence.
    + intros c _. destruct (safe p c 1); [apply NoDup_singleton|apply NoDup_nil_2].
Qed.

(** The column of the queen of row [r] in a placement of [N] rows. *)
Definition col_of (p : list Z) (r : Z) : Z :=
  default 0 (p !! Z.to_nat (N - 1 - r)).

Lemma col_of_lookup p r :
  length p = Z.to_nat N → 0 ≤ r < N →
  p !! Z.to_nat (N - 1 - r) = Some (col_of p r).
Proof.
  intros Hl Hr. unfold col_of.
  destruct (lookup_lt_is_Some_2 p (Z.to_nat (N - 1 - r))) as [c ->]; [lia|done].
Qed.

Lemma placement_queens_ok p :
  length p = Z.to_nat N → valid p → queens_ok N (col_of p).
Proof.
  intros Hl [Hrange Hpair]. split.
  - intros r Hr. apply (Hrange (Z.to_nat (N - 1 - r))). by apply col_of_lookup.
  - intros r1 r2 Hr1 Hr2 Hne.
    pose proof (col_of_lookup p r1 Hl Hr1) as H1.
    pose proof (col_of_lookup p r2 Hl Hr2) as H2.
    destruct (decide (r1 < r2)).
    + destruct (Hpair (Z.to_nat (N - 1 - r2)) (Z.to_nat (N - 1 - r1)) _ _
                  ltac:(lia) H2 H1). lia.
    + destruct (Hpair (Z.to_nat (N - 1 - r1)) (Z.to_nat (N - 1 - r2)) _ _
                  ltac:(lia) H1 H2). lia.
Qed.

Lemma queens_ok_placement q :
  1 ≤ N → queens_ok N q →
  ∃ p, length p = Z.to_nat N ∧ valid p ∧ ∀ r, 0 ≤ r < N → col_of p r = q r.
Proof.
  intros HN [Hrange Hpair]. exists ((λ i, q (N - 1 - i)) <$> range N).
  assert (Hlook : ∀ (i : nat) c,
            ((λ i, q (N - 1 - i)) <$> range N) !! i = Some c →
            Z.of_nat i < N ∧ c = q (N - 1 - Z.of_nat i)).
  { intros i c. unfold range. rewrite list_lookup_fmap.
    destruct (seqZ 0 N !! i) as [j|] eqn:Hj; [|done].
    apply lookup_seqZ in Hj as [-> Hj]. simpl. intros [= <-].
    split; [done|]. f_equal; lia. }
  split; [unfold range; by rewrite length_fmap, length_seqZ|]. split; [split|].
  - intros i c [Hi ->]%Hlook. apply Hrange. lia.
  - intros i j ci cj Hij [Hi ->]%Hlook [Hj ->]%Hlook.
    destruct (Hpair (N - 1 - Z.of_nat i) (N - 1 - Z.of_nat j)); [lia..|]. lia.
  - intros r Hr. unfold col_of, range.
    rewrite list_lookup_fmap, lookup_seqZ_lt by lia. simpl. f_equal. lia.
Qed.

Lemma col_of_inj p p' :
  length p = Z.to_nat N → length p' = Z.to_nat N →
  (∀ r, 0 ≤ r < N → col_of p r = col_of p' r) → p = p'.
Proof.
  intros Hl Hl' Heq. apply list_eq. intros i.
  destruct (decide (i < Z.to_nat N)%nat) as [Hi|Hi].
  - pose proof (col_of_lookup p (N - 1 - Z.of_nat i) Hl ltac:(lia)) as H1.
    pose proof (col_of_lookup p' (N - 1 - Z.of_nat i) Hl' ltac:(lia)) as H2.
    replace (Z.to_nat (N - 1 - (N - 1 - Z.of_nat i))) with i in H1, H2 by lia.
    rewrite H1, H2, Heq by lia. done.
  - rewrite !lookup_ge_None_2 by lia. done.
Qed.

Lemma board_sample_ext q q' :
  1 ≤ N → (∀ r, 0 ≤ r < N → q r = q' r) → board_sample N q = board_sample N q'.
Proof.
  intros HN Heq. unfold board_sample. f_equal. apply list_fmap_ext.
  intros i v [-> Hv]%lookup_seqZ. rewrite Heq; [done|].
  split; [apply Z.div_pos; lia|apply Z.div_lt_upper_bound; lia].
Qed.

Lemma board_sample_inj q q' :
  (∀ r, 0 ≤ r < N → 0 ≤ q r < N) →
  board_sample N q = board_sample N q' → ∀ r, 0 ≤ r < N → q r = q' r.
Proof.
  intros Hrange Heq r Hr.
  pose proof (board_sample_lookup N q r (q r) Hr (Hrange r Hr)) as H1.
  pose proof (board_sample_lookup N q' r (q r) Hr (Hrange r Hr)) as H2.
  rewrite Heq, H2 in H1.
  rewrite (bool_decide_eq_true_2 (q r = q r)) in H1 by done.
  by case_bool_decide.
Qed.

(** The samples of the placements on the whole board. *)
Definition solutions : list (gmap string Z) :=
  (λ p, board_sample N (col_of p)) <$> placements (Z.to_nat N).

Lemma NoDup_solutions : NoDup solutions.
Proof.
  apply NoDup_fmap_2_strong; [|apply NoDup_placements].
  intros p p' [Hl Hv]%elem_of_placements [Hl' Hv']%elem_of_placements Heq.
  apply col_of_inj; [done..|]. apply board_sample_inj; [|done].
  by apply placement_queens_ok.
Qed.

(** The feasible assignments for [N] queens on a board of side [N]
    are the samples of the enumerated placements. *)
Lemma feasible_iff_solution s :
  1 ≤ N → assignment N s ∧ satisfies s (model N N) ↔ s ∈ solutions.
Proof.
  intros HN. rewrite feasible_iff_placement by done. unfold solutions.
  rewrite list_elem_of_fmap. split.
  - intros (q & Hq & ->).
    destruct (queens_ok_placement q HN Hq) as (p & Hl & Hv & Hcol).
    exists p. split; [symmetry; by apply board_sample_ext|].
    by apply elem_of_placements.
  - intros (p & -> & [Hl Hv]%elem_of_placements).
    exists (col_of p). split; [by apply placement_queens_ok|done].
Qed.

End Backtracking.

(** ** Samples of the built model *)

Section Answers.

Import Py Dimod.

Variables (NQ N : Z).

(** Without a square there is nothing to sum: the first
    [add_constraint] raises. *)
Lemma build_no_square : N ≤ 0 → build NQ N = None.
Proof.
  intros HN. unfold build, board, range. rewrite !seqZ_nil by done. done.
Qed.

Lemma build_Some m : build NQ N = Some m → 1 ≤ N ∧ m = model NQ N.
Proof.
  intros Hm. destruct (decide (1 ≤ N)) as [HN|HN].
  - rewrite build_model in Hm by done. split; [done|congruence].
  - rewrite build_no_square in Hm by lia. done.
Qed.

(** A sample of the built model gives a value to every square
    variable. *)
Lemma answers_complete m s : build NQ N = Some m → answers m s → complete N s.
Proof.
  intros [HN ->]%build_Some Hs. unfold answers, model_variables, model in Hs.
  cbn [constraints] in Hs. rewrite bind_cons, Forall_app in Hs.
  by destruct Hs as [Hs _].
Qed.

End Answers.

(** ** The lines of a printed board *)

Section Lines.

Import Py Dimod IO.

Lemma not_numeric_nl : not_numeric (ascii_of_nat 10).
Proof. split; [done|]. intros x. unfold pretty_N_char. by repeat case_match. Qed.

Lemma split_nl_line (line rest : string) :
  count (ascii_of_nat 10) line = 0%nat →
  split_nl (line +:+ nl +:+ rest) = line :: split_nl rest.
Proof.
  induction line as [|a line IH]; intros Hline; [done|].
  rewrite append_cons. simpl in Hline. case_bool_decide as Ha; [done|].
  cbn [split_nl]. rewrite (proj2 (Ascii.eqb_neq _ _)) by congruence.
  by rewrite IH.
Qed.

Lemma join_ext {A} (f g : A → string) l :
  (∀ x, x ∈ l → f x = g x) → join f l = join g l.
Proof.
  induction l as [|x l IH]; intros Hfg; [done|].
  unfold join in *. cbn [foldr]. rewrite (Hfg x) by (by left).
  rewrite IH; [done|]. intros y Hy. apply Hfg. by right.
Qed.

Lemma count_join_0 {A} a (text : A → string) l :
  (∀ x, x ∈ l → count a (text x) = 0%nat) → count a (join text l) = 0%nat.
Proof.
  induction l as [|x l IH]; intros Hl; [done|].
  unfold join in *. cbn [foldr]. rewrite count_app, (Hl x) by (by left).
  rewrite IH; [done|]. intros y Hy. apply Hl. by right.
Qed.

Lemma split_nl_join {A} (line : A → string) l rest :
  (∀ x, x ∈ l → count (ascii_of_nat 10) (line x) = 0%nat) →
  split_nl (join (λ x, line x +:+ nl) l +:+ rest) = (line <$> l) ++ split_nl rest.
Proof.
  induction l as [|x l IH]; intros Hl; [done|].
  unfold join in *. cbn [foldr]. rewrite !append_assoc.
  rewrite split_nl_line by (apply Hl; by left).
  rewrite IH; [done|]. intros y Hy. apply Hl. by right.
Qed.

Variable N : Z.
Variable s : sample.

Lemma row_text_line r : row_text N s r = row_line N s r +:+ nl.
Proof. unfold row_text, row_line. by rewrite append_assoc. Qed.

Lemma count_nl_row_line r :
  count (ascii_of_nat 10) (row_line N s r) = 0%nat.
Proof.
  unfold row_line. rewrite count_app, count_join_0; [done|].
  intros c _. unfold square_text. by case_bool_decide.
Qed.

(** The lines of a printed board: the header, the rows, the closing
    line, and nothing after the last line feed. *)
Lemma split_nl_board i :
  split_nl (board_text N (i, s))
  = ("Result " +:+ str (i + 1) +:+ "    =====================")
    :: (row_line N s <$> range N) ++ ["================================="; ""].
Proof.
  assert (board_text N (i, s)
          = ("Result " +:+ str (i + 1) +:+ "    =====================")
            +:+ nl +:+ join (λ r, row_line N s r +:+ nl) (range N)
            +:+ "=================================" +:+ nl +:+ "") as ->.
  { unfold board_text. cbn [fst snd]. rewrite !append_assoc.
    by rewrite (join_ext (row_text N s) (λ r, row_line N s r +:+ nl))
      by (intros; apply row_text_line). }
  rewrite split_nl_line.
  - rewrite split_nl_join by (intros; apply count_nl_row_line). done.
  - rewrite !count_app, (count_str (ascii_of_nat 10)) by apply not_numeric_nl.
    done.
Qed.

(** A queen marker in a row of squares is the third character of a
    square with a positive value. *)
Lemma get_join_squares_W (f : Z → Z) (l : list Z) rest (p : nat) :
  String.get p (join (λ c, square_text (f c)) l +:+ rest) = Some "W"%char →
  (∃ (k : nat) x, l !! k = Some x ∧ p = (4 * k + 2)%nat ∧ 0 < f x) ∨
  (4 * length l ≤ p)%nat ∧ String.get (p - 4 * length l) rest = Some "W"%char.
Proof.
  revert p. induction l as [|x l IH]; intros p Hp.
  - right. split; [simpl; lia|]. by rewrite Nat.sub_0_r.
  - unfold join in Hp. cbn [foldr] in Hp. fold (join (λ c, square_text (f c)) l) in Hp.
    rewrite append_assoc in Hp. unfold square_text in Hp.
    destruct p as [|[|[|[|p]]]].
    + by destruct (bool_decide (0 < f x)).
    + by destruct (bool_decide (0 < f x)).
    + left. exists 0%nat, x. split; [done|]. split; [done|].
      by case_bool_decide.
    + by destruct (bool_decide (0 < f x)).
    + assert (String.get p (join (λ c, square_text (f c)) l +:+ rest)
              = Some "W"%char) as Hp'.
      { rewrite <-Hp. by destruct (bool_decide (0 < f x)). }
      destruct (IH p Hp') as [(k & y & Hk & -> & Hy)|[Hle Hrest]].
      * left. exists (S k), y. split; [done|]. split; [lia|done].
      * right. split; [simpl; lia|].
        by replace (S (S (S (S p))) - 4 * length (x :: l))%nat
             with (p - 4 * length l)%nat by (simpl; lia).
Qed.

Lemma get_row_line_W r (p : nat) :
  String.get p (row_line N s r) = Some "W"%char →
  ∃ c, 0 ≤ c < N ∧ p = Z.to_nat (4 * c + 2) ∧
       0 < default 0 (values s !! varname r c).
Proof.
  unfold row_line.
  intros [(k & c & Hk & -> & Hc)|[_ Hrest]]%get_join_squares_W.
  - unfold range in Hk. apply lookup_seqZ in Hk as [-> Hk].
    exists (0 + Z.of_nat k). split; [lia|]. split; [lia|done].
  - by destruct (p - 4 * length (range N))%nat as [|[|q]].
Qed.

(** At most one member of a list without repetition passes a test
    that no two members pass. *)
Lemma length_filter_unique {A B} (f : A → B) (P : B → Prop)
    `{∀ y, Decision (P y)} `{EqDecision A} (l : list A) :
  NoDup l → (∀ x y, x ∈ l → y ∈ l → P (f x) → P (f y) → x = y) →
  (length (filter P (f <$> l)) ≤ 1)%nat.
Proof.
  intros Hnd Huniq.
  destruct (decide (Exists (λ x, P (f x)) l)) as [Hex|Hno].
  - apply Exists_exists in Hex as (x0 & Hx0 & HP).
    etrans; [apply (length_filter_fmap_le_1 f P l x0); [done|]|].
    + intros x Hx HPx. by apply Huniq.
    + case_bool_decide; lia.
  - rewrite filter_none; [simpl; lia|].
    intros y (x & -> & Hx)%list_elem_of_fmap HP. apply Hno.
    apply Exists_exists. by exists x.
Qed.

End Lines.

(** * Properties of the script *)

(** ** The model *)

Section ModelProperties.

Import Py Dimod.

(** C1. For a board of side [N >= 1] the script builds a model with
    no objective whose constraints are, in this order: the one
    equality "board_total" of the sum of all [N * N] square variables
    with [NQ]; [N] column constraints, the sum over the rows of one
    column being at most 1; [N] row constraints, the sum over the
    columns of one row being at most 1; and one constraint "at most 1"
    per group of [diags]; nothing else. *)
Theorem model_constraints NQ N :
  1 ≤ N →
  ∃ m, build NQ N = Some m ∧ objective m = None ∧
    constraints m =
      Constraint "board_total" (eq_cmp (vlabels N) NQ)
      :: ((λ c, Constraint (col_label c)
                  (le_cmp ((λ r, varname r c) <$> range N) 1)) <$> range N)
      ++ ((λ r, Constraint (row_label r)
                  (le_cmp ((λ c, varname r c) <$> range N) 1)) <$> range N)
      ++ ((λ id : Z * list Z, Constraint (diag_label id.1)
                  (le_cmp (square N <$> id.2) 1)) <$> enumerate (diags N)) ∧
    NoDup (vlabels N) ∧
    length (vlabels N) = Z.to_nat (N * N) ∧
    length (range N) = Z.to_nat N ∧
    length (enumerate (diags N)) = length (diags N) ∧
    length (constraints m) = (1 + 2 * Z.to_nat N + length (diags N))%nat ∧
    length (filter (λ c, cmp_sense (c_cmp c) = EQ) (constraints m)) = 1%nat.
Proof.
  intros HN. exists (model NQ N). split; [by apply build_model|].
  split; [done|]. split; [done|].
  assert (Hlen : length (range N) = Z.to_nat N) by apply length_seqZ.
  assert (Henum : length (enumerate (diags N)) = length (diags N))
    by apply length_imap.
  split; [|split; [|split; [done|split; [done|split]]]].
  - apply NoDup_vlabels. lia.
  - apply length_grid. lia.
  - unfold model. simpl. rewrite !length_app, !length_fmap, Hlen, Henum. lia.
  - unfold model. cbn [constraints].
    rewrite filter_cons_True, !filter_app by done.
    rewrite !filter_none; [done|..].
    all: by intros c (x & -> & _)%list_elem_of_fmap.
Qed.

(** C1, at the board of the script. *)
Lemma model_constraints_witness :
  ∃ m, build 8 8 = Some m ∧ objective m = None ∧
       length (constraints m) = 43%nat.
Proof.
  destruct (model_constraints 8 8) as (m & Hm & Ho & _ & _ & _ & _ & _ & Hl & _);
    [lia|].
  exists m. split; [done|]. split; [done|]. rewrite Hl. reflexivity.
Defined.

(** C2. On a board of side [N >= 2], [diags] holds [2 * (2N - 3)]
    groups; every group has at least two members, all of them square
    numbers; the square [(r, c)] is a member of the [j]-th group
    exactly when it lies on the board diagonal of that group
    ([c - r] constant for the first orientation, [r + c] constant for
    the second); and a square lies in at most two groups. *)
Theorem diagonal_groups N :
  2 ≤ N →
  length (diags N) = Z.to_nat (2 * (2 * N - 3)) ∧
  (∀ g, g ∈ diags N →
     (2 ≤ length g)%nat ∧ ∀ v, v ∈ g → 0 ≤ v < N * N) ∧
  (∀ (j : nat) g r c,
     diags N !! j = Some g → 0 ≤ r < N → 0 ≤ c < N →
     - (N - 2) ≤ group_offset N j ≤ N - 2 ∧
     (r * N + c ∈ g ↔ on_diagonal N j r c)) ∧
  (∀ r c, 0 ≤ r < N → 0 ≤ c < N →
     (length (filter (λ g, (r * N + c)%Z ∈ g) (diags N)) ≤ 2)%nat).
Proof.
  intros HN. split; [by apply length_diags|]. split; [|split].
  - intros g Hg. split; [apply (diags_length N); [lia|done]|].
    intros v Hv. apply (diags_bounds N g); [lia|done..].
  - intros j g r c Hg Hr Hc. split.
    + by destruct (diags_lookup N j g HN Hg).
    + by apply diags_member.
  - intros r c Hr Hc. by apply diags_at_most_two.
Qed.

(** C2, on the board of the script: twenty-six groups. *)
Lemma diagonal_groups_witness : length (diags 8) = 26%nat.
Proof.
  destruct (diagonal_groups 8) as [-> _]; [lia|reflexivity].
Defined.

(** C8. On a board of one square the range of offsets is empty,
    [diags] holds no group, and the model has three constraints: the
    total, one column and one row. *)
Theorem single_square_model NQ :
  offsets 1 = [] ∧ diags 1 = [] ∧
  build NQ 1 =
    Some (Model [Constraint "board_total" (eq_cmp ["square_r0_c0"%string] NQ);
                 Constraint "col_0_total" (le_cmp ["square_r0_c0"%string] 1);
                 Constraint "row_0_total" (le_cmp ["square_r0_c0"%string] 1)]
                None).
Proof.
  split; [reflexivity|]. split; [apply diags_1|].
  rewrite build_model by lia. reflexivity.
Qed.

(** C10. The three numberings of the board agree: for a square
    [(r, c)] of the board, [board[(r, c)]] is [variables[r * N + c]],
    the variable named [varname r c], and [vnum[r][c]] is [r * N + c].
    In the model, the constraint of the [i]-th group of [diags] is
    labelled [diag_i_total] and sums exactly the variables of the
    squares on the board diagonal of that group, and no two
    constraints share a label. *)
Theorem numberings_agree NQ N :
  (∀ r c, 0 ≤ r < N → 0 ≤ c < N →
     ∃ b, board N = Some b ∧
          b !! (r, c) = index (variables N) (r * N + c) ∧
          index (variables N) (r * N + c) = Some (Binary (varname r c)) ∧
          Np.get (vnum N) r c = r * N + c) ∧
  (1 ≤ N →
     ∃ m, build NQ N = Some m ∧ NoDup (labels m) ∧
       ∀ (i : nat) d, diags N !! i = Some d →
         constraints m !! (1 + Z.to_nat N + Z.to_nat N + i)%nat
         = Some (Constraint (diag_label (Z.of_nat i))
                            (le_cmp (square N <$> d) 1)) ∧
         ∀ x, x ∈ square N <$> d ↔
              ∃ r c, 0 ≤ r < N ∧ 0 ≤ c < N ∧ x = varname r c ∧
                     on_diagonal N i r c).
Proof.
  split.
  - intros r c Hr Hc. destruct (board_lookup N) as (b & Hb & Hl).
    exists b. split; [done|]. rewrite Hl, bool_decide_eq_true_2 by done.
    rewrite variables_lookup by done. split; [done|]. split; [done|].
    by apply get_vnum.
  - intros HN. exists (model NQ N). split; [by apply build_model|].
    split; [apply NoDup_labels_model|]. intros i d Hd.
    assert (2 ≤ N) as HN2.
    { destruct (decide (N = 1)) as [->|]; [|lia]. by rewrite diags_1 in Hd. }
    split.
    + unfold model, range. cbn [constraints].
      rewrite lookup_cons_ne_0 by lia.
      rewrite lookup_app_r; rewrite length_fmap, length_seqZ; [|lia].
      rewrite lookup_app_r; rewrite length_fmap, length_seqZ; [|lia].
      rewrite list_lookup_fmap.
      replace (Init.Nat.pred (1 + Z.to_nat N + Z.to_nat N + i) - Z.to_nat N
               - Z.to_nat N)%nat with i by lia.
      unfold enumerate. rewrite list_lookup_imap, Hd. done.
    + intros x. rewrite list_elem_of_fmap. split.
      * intros (v & -> & Hv).
        pose proof (diags_bounds N d v ltac:(lia)
                      (list_elem_of_lookup_2 _ _ _ Hd) Hv) as Hb.
        exists (v `div` N), (v `mod` N).
        assert (0 ≤ v `div` N < N) by (split; [apply Z.div_pos; lia|apply Z.div_lt_upper_bound; lia]).
        assert (0 ≤ v `mod` N < N) by (apply Z.mod_pos_bound; lia).
        split; [done|]. split; [done|]. split; [done|].
        apply (diags_member N i d); [done..|].
        by rewrite (Z.mul_comm _ N), <-Z.div_mod by lia.
      * intros (r & c & Hr & Hc & -> & Hon). exists (r * N + c). split.
        -- by rewrite square_number.
        -- by apply (diags_member N i d).
Qed.

End ModelProperties.

Section Infeasible.

Import Py Dimod.

(** C4. On a board of side [N >= 1], when [NQ] exceeds the number of
    squares the script still builds the model, and no assignment of
    0 or 1 to the square variables satisfies its equality constraint,
    hence none satisfies the model. *)
Theorem oversubscribed_infeasible NQ N :
  1 ≤ N → N * N < NQ →
  ∃ m, build NQ N = Some m ∧
    ∀ s : gmap string Z,
      (∀ x v, x ∈ vlabels N → s !! x = Some v → v = 0 ∨ v = 1) →
      ¬ holds s (eq_cmp (vlabels N) NQ) ∧ ¬ satisfies s m.
Proof.
  intros HN HNQ. exists (model NQ N). split; [by apply build_model|].
  intros s Hbin.
  assert (¬ holds s (eq_cmp (vlabels N) NQ)) as Hno.
  { intros (t & Ht & Heq). simpl in Ht, Heq. subst t.
    rewrite <-(list_fmap_id (vlabels N)) in Ht.
    apply eval_fmap in Ht as [Hdef Ht].
    assert (NQ ≤ Z.of_nat (length (vlabels N))) as Hle.
    { rewrite Ht. apply zsum_le_length. intros x Hx.
      destruct (Hdef x Hx) as [v Hv]. simpl in Hv |- *. rewrite Hv. simpl.
      destruct (Hbin x v Hx Hv); lia. }
    unfold vlabels in Hle. rewrite length_grid in Hle by lia. lia. }
  split; [done|]. intros Hsat. apply Hno.
  unfold satisfies, model in Hsat. cbn [constraints] in Hsat.
  by apply Forall_cons_1 in Hsat as [Hsat _].
Qed.

(** C4, for two queens on a board of one square. *)
Lemma oversubscribed_infeasible_witness :
  ∃ m, build 2 1 = Some m ∧
    ∀ s : gmap string Z,
      (∀ x v, x ∈ vlabels 1 → s !! x = Some v → v = 0 ∨ v = 1) →
      ¬ holds s (eq_cmp (vlabels 1) 2) ∧ ¬ satisfies s m.
Proof. apply (oversubscribed_infeasible 2 1); lia. Defined.

End Infeasible.

Section ReportProperties.

Import Py Dimod IO.



(** Two keys out of order are swapped by every sort, and two keys in
    order are left in place. *)
Lemma argsort_swap argsort (x y : Qc) :
  Np.is_argsort argsort → ¬ (x ≤ y)%Qc → argsort [x; y] = [1; 0]%nat.
Proof.
  intros Hsort Hxy. destruct (Hsort [x; y]) as [Hp Hs]. simpl in Hp.
  symmetry in Hp. apply Permutation_length_2_inv in Hp as [E|E]; [|done].
  destruct Hxy. apply (Hs 0 1 0 1)%nat; [lia|by rewrite E..|done|done].
Qed.

Lemma argsort_keep argsort (x y : Qc) :
  Np.is_argsort argsort → ¬ (y ≤ x)%Qc → argsort [x; y] = [0; 1]%nat.
Proof.
  intros Hsort Hxy. destruct (Hsort [x; y]) as [Hp Hs]. simpl in Hp.
  symmetry in Hp. apply Permutation_length_2_inv in Hp as [E|E]; [done|].
  destruct Hxy. apply (Hs 0 1 1 0)%nat; [lia|by rewrite E..|done|done].
Qed.


(** C6. A retained sample that gives a value to every square variable
    is printed as a header line, then the rows of the board from the
    first to the last, each made of the squares of the row from the
    first column to the last, a square being "|.W." when the value of
    its variable is greater than 0 and "|..." otherwise, and each
    ended by "|" and a line feed, then a closing line. *)
Theorem board_rendering N (i : Z) (s : sample) (out : string) :
  complete N s →
  print_board N (i, s) out
  = (out
     +:+ "Result " +:+ str (i + 1) +:+ "    =====================" +:+ nl
     +:+ join (λ r,
           join (λ c,
             "|." +:+ (if bool_decide (0 < default 0 (values s !! varname r c))
                       then "W" else ".") +:+ ".") (range N)
           +:+ "|" +:+ nl) (range N)
     +:+ "=================================" +:+ nl,
     Some tt).
Proof. intros Hs. by rewrite print_board_run. Qed.

(** C6, on a board of side two with one queen. *)
Lemma board_rendering_witness :
  print_board 2
    (0, Sample (dict_of [("square_r0_c0", 0); ("square_r0_c1", 1);
                         ("square_r1_c0", 0); ("square_r1_c1", 0)]%string)
               0 true) ""
  = (("Result 1    =====================" +:+ nl
      +:+ "|...|.W.|" +:+ nl
      +:+ "|...|...|" +:+ nl
      +:+ "=================================" +:+ nl)%string, Some tt).
Proof.
  rewrite board_rendering; [reflexivity|].
  unfold complete. repeat constructor; by eexists.
Defined.

End ReportProperties.

Section SolutionProperties.

Import Py Dimod IO.

(** C7. When a sample gives 0 or 1 to every square variable and
    satisfies the model built for [NQ] queens on a board of side
    [N >= 1], its board is printed as a header line, [N] row lines
    and a closing line; the printed text holds exactly [NQ] queen
    markers, every row line holds at most one, and at every position
    of a line at most one row line holds a marker: no two markers
    stand in one rendered column. *)
Theorem solution_rendering NQ N :
  1 ≤ N →
  ∃ m, build NQ N = Some m ∧
    ∀ (i : Z) (s : sample),
      binary N (values s) → satisfies (values s) m →
      ∃ text rows,
        print_board N (i, s) "" = (text, Some tt) ∧
        split_nl text
        = ("Result " +:+ str (i + 1) +:+ "    =====================")
          :: rows ++ ["================================="; ""] ∧
        length rows = Z.to_nat N ∧
        Z.of_nat (count "W"%char text) = NQ ∧
        Forall (λ row, (count "W"%char row ≤ 1)%nat) rows ∧
        ∀ p : nat,
          (length (filter (λ row, String.get p row = Some "W"%char) rows)
           ≤ 1)%nat.
Proof.
  intros HN. exists (model NQ N). split; [by apply build_model|].
  intros i s Hbin Hsat.
  pose proof (satisfies_defined NQ N _ HN Hsat) as Hdef.
  assert (complete N s) as Hcomplete by (by apply Forall_forall).
  apply satisfies_sums in Hsat as (Htot & Hcol & Hrow & _); [|done..].
  exists (board_text N (i, s)), (row_line N s <$> range N).
  split; [by rewrite print_board_run|].
  split; [apply split_nl_board|].
  split; [by rewrite length_fmap; unfold range; rewrite length_seqZ|].
  split; [by rewrite count_board_text|]. split.
  - apply Forall_fmap, Forall_forall. intros r Hr%elem_of_seqZ. simpl.
    apply Nat2Z.inj_le. etrans; [|apply (Hrow r); lia].
    rewrite <-count_row_text by (done || lia).
    rewrite row_text_line, count_app. lia.
  - intros p.
    apply (length_filter_unique (row_line N s)
             (λ row, String.get p row = Some "W"%char) (range N));
      [apply NoDup_seqZ|].
    intros r1 r2 Hr1%elem_of_seqZ Hr2%elem_of_seqZ
           (c1 & Hc1 & -> & Hv1)%get_row_line_W
           (c2 & Hc2 & E & Hv2)%get_row_line_W.
    assert (c2 = c1) as -> by lia.
    apply (zsum_at_most_one (λ r, value (values s) (varname r c1)) (range N));
      [apply NoDup_seqZ| |by apply Hcol|apply elem_of_seqZ; lia..| |].
    + intros r Hr%elem_of_seqZ. apply binary_value with N; [done|lia..].
    + destruct (binary_value N s r1 c1) as [H0|H1]; [done|lia..| |done].
      unfold value in H0. lia.
    + destruct (binary_value N s r2 c1) as [H0|H1]; [done|lia..| |done].
      unfold value in H0. lia.
Qed.

End SolutionProperties.

Section EightQueens.

Import Py Dimod.

(** C3. For eight queens on the board of side eight the script builds
    a model that is satisfiable: the assignments of 0 or 1 to the 64
    square variables that satisfy all its constraints are 92 in
    number. *)
Theorem eight_queens_92 :
  ∃ m, build 8 8 = Some m ∧
    ∃ L : list (gmap string Z),
      length L = 92%nat ∧ NoDup L ∧
      ∀ s, (assignment 8 s ∧ satisfies s m) ↔ s ∈ L.
Proof.
  exists (model 8 8). split; [by apply build_model|].
  exists (solutions 8). split; [|split].
  - unfold solutions. rewrite length_fmap. by vm_compute.
  - apply NoDup_solutions.
  - intros s. by apply feasible_iff_solution.
Qed.

End EightQueens.

Section Examples.

Import Py Dimod IO.

Example placements_4 : placements 4 4 = [[2; 0; 3; 1]; [1; 3; 0; 2]].
Proof. reflexivity. Qed.

(** C7, for four queens on the board of side four: the placement
    with the queens in columns 1, 3, 0 and 2 is feasible, its printed
    board holds four markers and no two of them stand at the seventh
    position of a row line. *)
Lemma solution_rendering_witness :
  ∃ m s, build 4 4 = Some m ∧
    binary 4 (values s) ∧ satisfies (values s) m ∧
    ∃ text rows, print_board 4 (0, s) "" = (text, Some tt) ∧
      split_nl text
      = "Result 1    =====================" :: rows
        ++ ["================================="; ""]%string ∧
      Z.of_nat (count "W"%char text) = 4 ∧
      (length (filter (λ row, String.get 6 row = Some "W"%char) rows) ≤ 1)%nat.
Proof.
  destruct (solution_rendering 4 4) as (m & Hm & Hrender); [lia|].
  exists m, (Sample (board_sample 4 (col_of 4 [2; 0; 3; 1])) 0 true).
  assert (m = model 4 4) as ->.
  { rewrite build_model in Hm by lia. by injection Hm. }
  assert (assignment 4 (board_sample 4 (col_of 4 [2; 0; 3; 1])) ∧
          satisfies (board_sample 4 (col_of 4 [2; 0; 3; 1])) (model 4 4))
    as [[_ Hbin] Hsat].
  { apply feasible_iff_solution; [lia|]. unfold solutions.
    apply (list_elem_of_fmap_2 (λ p, board_sample 4 (col_of 4 p))).
    change (Z.to_nat 4) with 4%nat. rewrite placements_4. by left. }
  split; [exact Hm|]. split; [exact Hbin|]. split; [exact Hsat|].
  destruct (Hrender 0 (Sample (board_sample 4 (col_of 4 [2; 0; 3; 1])) 0 true)
              Hbin Hsat) as (text & rows & Hrun & Hlines & _ & Hcount & _ & Hcols).
  exists text, rows. split; [exact Hrun|]. split; [exact Hlines|].
  split; [exact Hcount|exact (Hcols 6%nat)].
Defined.

End Examples.

Section ReportExamples.

Import Py Dimod IO.

Let queen : sample := Sample (dict_of [("square_r0_c0"%string, 1)]) 0 true.
Let nothing : sample := Sample (dict_of [("square_r0_c0"%string, 0)]) 0 false.

(** Both are samples of the model of one queen on one square. *)
Example samples_answer :
  build 1 1 = Some (model 1 1) ∧
  answers (model 1 1) queen ∧ answers (model 1 1) nothing.
Proof.
  split; [reflexivity|]. split; repeat constructor; by eexists.
Qed.

(** One sample out of two is feasible: it alone is printed. *)
Example report_one_feasible :
  report 1 (λ _, "<table>"%string) Np.stable_argsort [nothing; queen] ""
  = (("1 Feasible samples" +:+ nl
      +:+ " " +:+ nl
      +:+ "==============================BEST SAMPLE SET=============================="
      +:+ nl
      +:+ "<table>" +:+ nl
      +:+ "Result 1    =====================" +:+ nl
      +:+ "|.W.|" +:+ nl
      +:+ "=================================" +:+ nl)%string, Some tt).
Proof. reflexivity. Qed.

(** No sample is feasible: the warning, then the board of the sample. *)
Example report_none_feasible :
  report 1 (λ _, "<table>"%string) Np.stable_argsort [nothing] ""
  = (("0 Feasible samples" +:+ nl
      +:+ "Warning: Did not find feasible solution" +:+ nl
      +:+ " " +:+ nl
      +:+ "==============================BEST SAMPLE SET=============================="
      +:+ nl
      +:+ "<table>" +:+ nl
      +:+ "Result 1    =====================" +:+ nl
      +:+ "|...|" +:+ nl
      +:+ "=================================" +:+ nl)%string, Some tt).
Proof. reflexivity. Qed.

(** A sample without the variable of a square: the lookup raises
    after the header of the board was printed. *)
Example report_missing_variable :
  report 1 (λ _, "<table>"%string) Np.stable_argsort [Sample ∅ 0 true] ""
  = (("1 Feasible samples" +:+ nl
      +:+ " " +:+ nl
      +:+ "==============================BEST SAMPLE SET=============================="
      +:+ nl
      +:+ "<table>" +:+ nl
      +:+ "Result 1    =====================" +:+ nl)%string, None).
Proof. reflexivity. Qed.

End ReportExamples.

Example diags_3 :
  diags 3 = [[3; 7]; [0; 4; 8]; [1; 5]; [5; 7]; [2; 4; 6]; [1; 3]].
Proof. reflexivity. Qed.

Example build_2 : Dimod.labels <$> build 2 2 =
  Some ["board_total"; "col_0_total"; "col_1_total"; "row_0_total";
        "row_1_total"; "diag_0_total"; "diag_1_total"]%string.
Proof. vm_compute. reflexivity. Qed.


(** * Further properties of the script *)

(** ** Names and variables *)

Section Names.

Import Py Dimod.

(** X1. Two squares have the same variable name only when they are
    the same square, whatever the integers; the list [vlabels] holds
    the name of square [(r, c)] at position [r * N + c], and
    [variables] holds, on a board of side [N >= 1], the binary
    variable of each name of [vlabels], in the same order. *)
Theorem varname_injective :
  (∀ r c r' c', varname r c = varname r' c' ↔ r = r' ∧ c = c') ∧
  (∀ N r c, 0 ≤ r < N → 0 ≤ c < N →
     vlabels N !! Z.to_nat (r * N + c) = Some (varname r c)) ∧
  (∀ N, 1 ≤ N → variables N = Binary <$> vlabels N).
Proof.
  split; [|split].
  - intros r c r' c'. split; [apply varname_inj|by intros [-> ->]].
  - intros N r c Hr Hc. by apply (lookup_grid varname).
  - intros N HN. unfold variables, vlabels. rewrite !grid_flat by lia.
    by rewrite <-list_fmap_compose.
Qed.

Lemma square_inj N v w :
  1 ≤ N → 0 ≤ v < N * N → 0 ≤ w < N * N → square N v = square N w → v = w.
Proof.
  intros HN Hv Hw [Hd Hm]%varname_inj.
  rewrite (Z.div_mod v N), (Z.div_mod w N) by lia. congruence.
Qed.

Lemma NoDup_diag_group N d : 1 ≤ N → d ∈ diags N → NoDup d.
Proof.
  intros HN (col & k & Hcol & _ & ->)%diags_elem; [|done].
  by apply NoDup_rc_diag.
Qed.

(** X2. In the model built for a board of side [N >= 1] no
    constraint counts a variable twice, and the variables of the
    model are exactly the [N * N] square variables. *)
Theorem model_unit_coefficients NQ N :
  1 ≤ N →
  ∃ m, build NQ N = Some m ∧
    Forall (λ c, NoDup (cmp_lhs (c_cmp c))) (constraints m) ∧
    (∀ x, x ∈ model_variables m ↔ x ∈ vlabels N) ∧
    length (vlabels N) = Z.to_nat (N * N).
Proof.
  intros HN. exists (model NQ N). split; [by apply build_model|].
  assert (Hcols : ∀ c, NoDup ((λ r, varname r c) <$> range N)).
  { intros c. apply NoDup_fmap_2_strong; [|apply NoDup_seqZ].
    by intros r r' _ _ [? _]%varname_inj. }
  assert (Hrows : ∀ r, NoDup ((λ c, varname r c) <$> range N)).
  { intros r. apply NoDup_fmap_2_strong; [|apply NoDup_seqZ].
    by intros c c' _ _ [_ ?]%varname_inj. }
  assert (Hdiags : ∀ d, d ∈ diags N → NoDup (square N <$> d)).
  { intros d Hd. apply NoDup_fmap_2_strong; [|by apply (NoDup_diag_group N)].
    intros v w Hv Hw. apply square_inj; [done|by apply (diags_bounds N d)..]. }
  assert (Hsub : ∀ d v, d ∈ diags N → v ∈ d → square N v ∈ vlabels N).
  { intros d v Hd Hv. rewrite vlabels_flat by lia.
    apply list_elem_of_fmap_2, elem_of_seqZ.
    pose proof (diags_bounds N d v HN Hd Hv). lia. }
  split; [|split; [|apply length_grid; lia]].
  - unfold model. cbn [constraints].
    rewrite Forall_cons, !Forall_app, !Forall_fmap, !Forall_forall.
    split; [apply NoDup_vlabels; lia|]. split; [by intros c _; apply Hcols|].
    split; [by intros r _; apply Hrows|].
    intros [i d] [j [_ Hd]%enumerate_lookup]%list_elem_of_lookup.
    apply Hdiags. by apply list_elem_of_lookup_2 in Hd.
  - intros x. unfold model_variables, model. cbn [constraints].
    rewrite bind_cons, elem_of_app. cbn [c_cmp total_constraint eq_cmp cmp_lhs].
    split; [|by left].
    intros [Hx|Hx]; [done|].
    apply list_elem_of_bind in Hx as (cst & Hx & Hcst).
    rewrite !elem_of_app, !list_elem_of_fmap in Hcst.
    destruct Hcst as [(c & -> & Hc)|[(r & -> & Hr)|([i d] & -> & Hd)]];
      simpl in Hx.
    + apply list_elem_of_fmap in Hx as (r & -> & Hr).
      apply elem_of_seqZ in Hc, Hr. apply elem_of_vlabels. exists r, c. split; [lia|]. split; [lia|done].
    + apply list_elem_of_fmap in Hx as (c & -> & Hc).
      apply elem_of_seqZ in Hc, Hr. apply elem_of_vlabels. exists r, c. split; [lia|]. split; [lia|done].
    + apply list_elem_of_fmap in Hx as (v & -> & Hv).
      apply list_elem_of_lookup in Hd as [j [_ Hd]%enumerate_lookup].
      apply (Hsub d); [|done]. by apply list_elem_of_lookup_2 in Hd.
Qed.

(** X2, on the board of the script: sixty-four variables. *)
Lemma model_unit_coefficients_witness :
  ∃ m, build 8 8 = Some m ∧ length (vlabels 8) = 64%nat.
Proof.
  destruct (model_unit_coefficients 8 8) as (m & Hm & _ & _ & Hl); [lia|].
  exists m. split; [done|]. rewrite Hl. reflexivity.
Defined.

End Names.

(** ** Diagonals and attacks *)

Section Attacks.

Import Py Dimod.

Variable N : Z.

(** Two squares of a common group lie on a common diagonal. *)
Lemma common_group_diagonal g r1 c1 r2 c2 :
  1 ≤ N → 0 ≤ r1 < N → 0 ≤ c1 < N → 0 ≤ r2 < N → 0 ≤ c2 < N →
  g ∈ diags N → r1 * N + c1 ∈ g → r2 * N + c2 ∈ g →
  c1 - r1 = c2 - r2 ∨ r1 + c1 = r2 + c2.
Proof.
  intros HN Hr1 Hc1 Hr2 Hc2 Hg H1 H2.
  destruct (diags_orientation N g HN Hg) as (k & Hk & [-> | ->]).
  - apply elem_of_rc_diag in H1 as (j1 & _ & E1 & F1); [|done..].
    apply elem_of_rc_diag in H2 as (j2 & _ & E2 & F2); [|done..].
    unfold id in *. left. lia.
  - apply elem_of_rc_diag in H1 as (j1 & _ & E1 & F1); [|intros; lia|done..].
    apply elem_of_rc_diag in H2 as (j2 & _ & E2 & F2); [|intros; lia|done..].
    right. lia.
Qed.

(** Two distinct squares of a common diagonal lie in a common group. *)
Lemma diagonal_common_group r1 c1 r2 c2 :
  1 ≤ N → 0 ≤ r1 < N → 0 ≤ c1 < N → 0 ≤ r2 < N → 0 ≤ c2 < N →
  (r1, c1) ≠ (r2, c2) →
  c1 - r1 = c2 - r2 ∨ r1 + c1 = r2 + c2 →
  ∃ g, g ∈ diags N ∧ r1 * N + c1 ∈ g ∧ r2 * N + c2 ∈ g.
Proof.
  intros HN Hr1 Hc1 Hr2 Hc2 Hne.
  assert (r1 ≠ r2 ∨ c1 ≠ c2) as Hne'.
  { destruct (decide (r1 = r2)) as [->|]; [|by left].
    right. intros ->. by apply Hne. }
  intros [E|E].
  - destruct (rc_diag_in_diags N (c1 - r1) HN) as [Hd _]; [lia|].
    exists (rc_diag N id (c1 - r1)). split; [done|].
    split; apply elem_of_rc_diag; try done.
    + exists c1. by unfold id.
    + exists c2. unfold id. split; [done|]. split; [done|lia].
  - destruct (rc_diag_in_diags N (N - 1 - c1 - r1) HN) as [_ Hd]; [lia|].
    exists (rc_diag N (λ c, N - 1 - c) (N - 1 - c1 - r1)). split; [done|].
    split; (apply elem_of_rc_diag; [intros; lia|done..|]).
    + exists (N - 1 - c1). split; [lia|]. split; lia.
    + exists (N - 1 - c2). split; [lia|]. split; lia.
Qed.

(** X3. On a board of side [N >= 1], two distinct squares lie in a
    common group of [diags] exactly when they lie on a common
    diagonal of the board: the groups leave out no pair of squares
    that attack each other along a diagonal, and put together no pair
    that does not. *)
Theorem diagonal_attacks r1 c1 r2 c2 :
  1 ≤ N → 0 ≤ r1 < N → 0 ≤ c1 < N → 0 ≤ r2 < N → 0 ≤ c2 < N →
  (r1, c1) ≠ (r2, c2) →
  (∃ g, g ∈ diags N ∧ r1 * N + c1 ∈ g ∧ r2 * N + c2 ∈ g) ↔
  c1 - r1 = c2 - r2 ∨ r1 + c1 = r2 + c2.
Proof.
  intros HN Hr1 Hc1 Hr2 Hc2 Hne. split.
  - intros (g & Hg & H1 & H2). by apply (common_group_diagonal g).
  - by apply diagonal_common_group.
Qed.

End Attacks.

(** X3, for the squares (0, 0) and (1, 1) of the board of side two. *)
Lemma diagonal_attacks_witness :
  ∃ g, g ∈ diags 2 ∧ 0 * 2 + 0 ∈ g ∧ 1 * 2 + 1 ∈ g.
Proof.
  apply (diagonal_attacks 2 0 0 1 1); [lia..|done|by left].
Defined.

Section GroupSizes.

Import Py Dimod.

Variable N : Z.

Lemma rc_diag_plain_offset k r c :
  0 ≤ r < N → 0 ≤ c < N → r * N + c ∈ rc_diag N id k → k = c - r.
Proof.
  intros Hr Hc (j & _ & E & F)%elem_of_rc_diag; [|done..]. unfold id in E. lia.
Qed.

Lemma rc_diag_mirror_offset k r c :
  0 ≤ r < N → 0 ≤ c < N →
  r * N + c ∈ rc_diag N (λ c, N - 1 - c) k → k = N - 1 - c - r.
Proof.
  intros Hr Hc (j & _ & E & F)%elem_of_rc_diag; [lia|intros; lia|done..].
Qed.

(** A group of at least two squares has two different members. *)
Lemma two_members (g : list Z) :
  (2 ≤ length g)%nat → NoDup g → ∃ v w, v ∈ g ∧ w ∈ g ∧ v ≠ w.
Proof.
  destruct g as [|v [|w g]]; simpl; [lia..|]. intros _ Hnd.
  exists v, w. split; [by left|]. split; [right; by left|].
  apply NoDup_cons in Hnd as [Hv _]. intros ->. apply Hv. by left.
Qed.

Lemma NoDup_diags : 2 ≤ N → NoDup (diags N).
Proof.
  intros HN.
  assert (Hsq : ∀ col k, (∀ c, 0 ≤ c < N → 0 ≤ col c < N) → - (N - 2) ≤ k ≤ N - 2 →
            ∃ v w, v ∈ rc_diag N col k ∧ w ∈ rc_diag N col k ∧ v ≠ w).
  { intros col k Hcol Hk. apply two_members; [|by apply NoDup_rc_diag].
    rewrite length_rc_diag. lia. }
  assert (Hoff : ∀ k, k ∈ offsets N → - (N - 2) ≤ k ≤ N - 2).
  { intros k Hk%elem_of_seqZ. lia. }
  rewrite diags_rc by lia. apply NoDup_app. split; [|split].
  - apply NoDup_fmap_2_strong; [|apply NoDup_seqZ].
    intros k k' Hk%Hoff Hk'%Hoff E.
    destruct (Hsq id k) as (v & _ & Hv & _); [done..|].
    pose proof Hv as Hv'. rewrite E in Hv'.
    apply rc_diag_squares in Hv as (r & c & Hr & Hc & -> & _); [|lia|done].
    pose proof Hv' as Hv''. rewrite <-E in Hv''.
    apply rc_diag_plain_offset in Hv', Hv''; [|done..]. lia.
  - intros g (k & -> & Hk%Hoff)%list_elem_of_fmap
             (k' & E & Hk'%Hoff)%list_elem_of_fmap.
    destruct (Hsq id k) as (v & w & Hv & Hw & Hne); [done..|].
    pose proof Hv as Hv'. pose proof Hw as Hw'. rewrite E in Hv', Hw'.
    apply rc_diag_squares in Hv as (r1 & c1 & Hr1 & Hc1 & -> & _); [|lia|done].
    apply rc_diag_squares in Hw as (r2 & c2 & Hr2 & Hc2 & -> & _); [|lia|done].
    assert (r1 * N + c1 ∈ rc_diag N id k) as H1 by (by rewrite E).
    assert (r2 * N + c2 ∈ rc_diag N id k) as H2 by (by rewrite E).
    apply rc_diag_plain_offset in H1, H2; [|done..].
    apply rc_diag_mirror_offset in Hv', Hw'; [|done..].
    apply Hne. f_equal; lia.
  - apply NoDup_fmap_2_strong; [|apply NoDup_seqZ].
    intros k k' Hk%Hoff Hk'%Hoff E.
    destruct (Hsq (λ c, N - 1 - c) k) as (v & _ & Hv & _); [intros; lia|done|].
    pose proof Hv as Hv'. rewrite E in Hv'.
    apply rc_diag_squares in Hv as (r & c & Hr & Hc & -> & _);
      [|lia|intros; lia].
    pose proof Hv' as Hv''. rewrite <-E in Hv''.
    apply rc_diag_mirror_offset in Hv', Hv''; [|done..]. lia.
Qed.

(** X4. On a board of side [N >= 2] the group of offset [k] holds
    [N - |k|] squares, no square twice, and no two groups of [diags]
    are the same list: no diagonal constraint is added twice. *)
Theorem diagonal_group_sizes :
  2 ≤ N →
  (∀ (j : nat) g, diags N !! j = Some g →
     length g = Z.to_nat (N - Z.abs (group_offset N j)) ∧ NoDup g) ∧
  NoDup (diags N).
Proof.
  intros HN. split; [|by apply NoDup_diags].
  intros j g Hg. split.
  - destruct (diags_lookup N j g HN Hg) as [_ ->]. apply length_rc_diag.
  - apply (NoDup_diag_group N); [lia|]. by apply list_elem_of_lookup_2 in Hg.
Qed.

End GroupSizes.

(** X4, on the board of side three: the six groups are different. *)
Lemma diagonal_group_sizes_witness : NoDup (diags 3).
Proof. apply (diagonal_group_sizes 3). lia. Defined.

(** ** Feasibility and the number of queens *)

Section Feasibility_of_NQ.

Import Py Dimod.

(** X5. On any board of side [N >= 1], the assignments of 0 or 1 to
    the square variables that satisfy the model built for [N] queens
    are exactly the boards with one queen in every row and no two
    queens in one column or on one diagonal; the backtracking
    enumeration lists each of them once. *)
Theorem n_queens_model N :
  1 ≤ N →
  ∃ m, build N N = Some m ∧
    (∀ s, assignment N s ∧ satisfies s m ↔
          ∃ q, queens_ok N q ∧ s = board_sample N q) ∧
    (∀ s, assignment N s ∧ satisfies s m ↔ s ∈ solutions N) ∧
    NoDup (solutions N) ∧
    length (solutions N) = length (placements N (Z.to_nat N)).
Proof.
  intros HN. exists (model N N). split; [by apply build_model|].
  split; [intros s; by apply feasible_iff_placement|].
  split; [intros s; by apply feasible_iff_solution|].
  split; [apply NoDup_solutions|]. unfold solutions. by rewrite length_fmap.
Qed.

(** X5, on the board of side four: two placements. *)
Lemma n_queens_model_witness :
  ∃ m, build 4 4 = Some m ∧ length (solutions 4) = 2%nat.
Proof.
  destruct (n_queens_model 4) as (m & Hm & _ & _ & _ & Hl); [lia|].
  exists m. split; [done|]. rewrite Hl. reflexivity.
Defined.

Lemma binary_nonneg N (s : gmap string Z) r c :
  binary N s → 0 ≤ r < N → 0 ≤ c < N →
  0 ≤ value s (varname r c) ≤ 1.
Proof.
  intros Hbin Hr Hc. unfold value.
  destruct (s !! varname r c) as [v|] eqn:Hv; simpl; [|lia].
  destruct (Hbin (varname r c) v); [|done|lia..].
  apply elem_of_vlabels. by exists r, c.
Qed.

(** X6. On a board of side [N >= 1] the model still builds when the
    number of queens is negative or exceeds [N], and then no
    assignment of 0 or 1 satisfies it: the row constraints leave room
    for at most one queen per row. *)
Theorem queens_out_of_range NQ N :
  1 ≤ N → NQ < 0 ∨ N < NQ →
  ∃ m, build NQ N = Some m ∧
    ∀ s : gmap string Z, binary N s → ¬ satisfies s m.
Proof.
  intros HN HNQ. exists (model NQ N). split; [by apply build_model|].
  intros s Hbin Hsat.
  pose proof (satisfies_defined NQ N s HN Hsat) as Hdef.
  apply satisfies_sums in Hsat as (Htot & _ & Hrow & _); [|done..].
  unfold total_sum in Htot.
  assert (0 ≤ zsum (λ r, zsum (λ c, value s (varname r c)) (range N)) (range N)).
  { apply zsum_nonneg. intros r Hr%elem_of_seqZ.
    apply zsum_nonneg. intros c Hc%elem_of_seqZ.
    apply (binary_nonneg N); [done|lia..]. }
  assert (zsum (λ r, zsum (λ c, value s (varname r c)) (range N)) (range N)
          ≤ Z.of_nat (length (range N))).
  { apply zsum_le_length. intros r Hr%elem_of_seqZ. apply Hrow. lia. }
  unfold range in *. rewrite length_seqZ in *. lia.
Qed.

(** X6, for three queens on the board of side two. *)
Lemma queens_out_of_range_witness :
  ∃ m, build 3 2 = Some m ∧
    ∀ s : gmap string Z, binary 2 s → ¬ satisfies s m.
Proof. apply (queens_out_of_range 3 2); [lia|right; lia]. Defined.

Lemma zsum_zero_inv {A} (f : A → Z) (l : list A) x :
  (∀ y, y ∈ l → 0 ≤ f y) → zsum f l = 0 → x ∈ l → f x = 0.
Proof.
  intros Hpos Hsum Hx. pose proof (zsum_elem f l x Hpos Hx).
  specialize (Hpos x Hx). lia.
Qed.

Lemma no_queen_value N r c :
  0 ≤ r < N → 0 ≤ c < N → value (board_sample N (λ _, -1)) (varname r c) = 0.
Proof.
  intros Hr Hc. rewrite board_sample_value by done.
  rewrite bool_decide_eq_false_2; [done|lia].
Qed.

(** X7. On a board of side [N >= 1] the model built for no queen has
    one feasible assignment of 0 or 1: the empty board, with 0 on
    every square. *)
Theorem no_queen_model N :
  1 ≤ N →
  ∃ m, build 0 N = Some m ∧
    (∀ x, x ∈ vlabels N → board_sample N (λ _, -1) !! x = Some 0) ∧
    ∀ s, assignment N s ∧ satisfies s m ↔ s = board_sample N (λ _, -1).
Proof.
  intros HN. exists (model 0 N). split; [by apply build_model|]. split.
  { intros x (r & c & Hr & Hc & ->)%elem_of_vlabels.
    rewrite board_sample_lookup by done.
    rewrite bool_decide_eq_false_2; [done|lia]. }
  intros s. split.
  - intros [Hs Hsat]. pose proof (assignment_defined N s Hs) as Hdef.
    apply satisfies_sums in Hsat as (Htot & _); [|done..].
    unfold total_sum in Htot. destruct Hs as [Hdom Hbin].
    apply assignment_board_sample; [lia|done|].
    intros r c Hr Hc. rewrite bool_decide_eq_false_2 by lia.
    apply (zsum_zero_inv (λ c, value s (varname r c)) (range N)).
    + intros c' Hc'%elem_of_seqZ. apply (binary_nonneg N); [done|lia..].
    + apply (zsum_zero_inv
               (λ r, zsum (λ c, value s (varname r c)) (range N)) (range N));
        [|done|apply elem_of_seqZ; lia].
      intros r' Hr'%elem_of_seqZ. apply zsum_nonneg.
      intros c' Hc'%elem_of_seqZ. apply (binary_nonneg N); [done|lia..].
    + apply elem_of_seqZ. lia.
  - intros ->. split; [apply board_sample_assignment; lia|].
    apply satisfies_sums;
      [done|apply assignment_defined, board_sample_assignment; lia|].
    split; [|split; [|split]].
    + unfold total_sum. apply zsum_zero. intros r Hr%elem_of_seqZ.
      apply zsum_zero. intros c Hc%elem_of_seqZ. apply no_queen_value; lia.
    + intros c Hc. rewrite zsum_zero; [lia|].
      intros r Hr%elem_of_seqZ. apply no_queen_value; lia.
    + intros r Hr. rewrite zsum_zero; [lia|].
      intros c Hc%elem_of_seqZ. apply no_queen_value; lia.
    + intros d Hd. rewrite zsum_zero; [lia|]. intros v Hv.
      destruct (diags_elem N d HN Hd) as (col & k & Hcol & _ & ->).
      apply rc_diag_squares in Hv as (r & c & Hr & Hc & -> & _); [|done..].
      rewrite square_number by done. by apply no_queen_value.
Qed.

(** X7, on the board of one square. *)
Lemma no_queen_model_witness :
  ∃ m, build 0 1 = Some m ∧
       board_sample 1 (λ _, -1) !! "square_r0_c0"%string = Some 0.
Proof.
  destruct (no_queen_model 1) as (m & Hm & Hz & _); [lia|].
  exists m. split; [done|]. apply Hz. by left.
Defined.

End Feasibility_of_NQ.

(** ** Rows and columns *)

Section RowsColumns.

Import Py Dimod.

(** X8. In the model built for a board of side [N >= 1] there is one
    constraint per row label and one per column label of the board,
    and the variable of a square occurs in the row constraint of its
    own row and in the column constraint of its own column, and in no
    other row or column constraint. *)
Theorem square_row_column NQ N :
  1 ≤ N →
  ∃ m, build NQ N = Some m ∧
    (∀ k, 0 ≤ k < N →
       (∃ cst, cst ∈ constraints m ∧ c_label cst = row_label k) ∧
       (∃ cst, cst ∈ constraints m ∧ c_label cst = col_label k)) ∧
    ∀ cst r c, cst ∈ constraints m → 0 ≤ r < N → 0 ≤ c < N →
      (∀ r', c_label cst = row_label r' →
         0 ≤ r' < N ∧ (varname r c ∈ cmp_lhs (c_cmp cst) ↔ r' = r)) ∧
      (∀ c', c_label cst = col_label c' →
         0 ≤ c' < N ∧ (varname r c ∈ cmp_lhs (c_cmp cst) ↔ c' = c)).
Proof.
  intros HN. exists (model NQ N). split; [by apply build_model|]. split.
  { intros k Hk. split.
    - exists (row_constraint N k). split; [|done].
      unfold model. cbn [constraints]. right.
      apply elem_of_app. right. apply elem_of_app. left.
      apply list_elem_of_fmap_2, elem_of_seqZ. lia.
    - exists (col_constraint N k). split; [|done].
      unfold model. cbn [constraints]. right.
      apply elem_of_app. left. apply list_elem_of_fmap_2, elem_of_seqZ. lia. }
  intros cst r c Hcst Hr Hc. unfold model in Hcst. cbn [constraints] in Hcst.
  rewrite elem_of_cons, !elem_of_app, !list_elem_of_fmap in Hcst.
  destruct Hcst as [->|[(c0 & -> & Hc0)|[(r0 & -> & Hr0)|([i d] & -> & _)]]];
    cbn [c_label c_cmp cmp_lhs total_constraint col_constraint row_constraint
         diag_constraint le_cmp eq_cmp fst snd].
  - split; [intros r' E|intros c' E].
    + by destruct (label_total_row r').
    + by destruct (label_total_col c').
  - apply elem_of_seqZ in Hc0. split; [intros r' E|intros c' E].
    + by destruct (label_col_row c0 r').
    + apply (inj col_label) in E as <-. split; [lia|].
      rewrite list_elem_of_fmap. split.
      * by intros (r1 & [_ ?]%varname_inj & _).
      * intros ->. exists r. split; [done|apply elem_of_seqZ; lia].
  - apply elem_of_seqZ in Hr0. split; [intros r' E|intros c' E].
    + apply (inj row_label) in E as <-. split; [lia|].
      rewrite list_elem_of_fmap. split.
      * by intros (c1 & [? _]%varname_inj & _).
      * intros ->. exists c. split; [done|apply elem_of_seqZ; lia].
    + by destruct (label_col_row c' r0).
  - split; [intros r' E|intros c' E].
    + by destruct (label_row_diag r' i).
    + by destruct (label_col_diag c' i).
Qed.

(** X8, on the board of the script. *)
Lemma square_row_column_witness :
  ∃ m cst, build 8 8 = Some m ∧ cst ∈ constraints m ∧
           c_label cst = row_label 3.
Proof.
  destruct (square_row_column 8 8) as (m & Hm & Hex & _); [lia|].
  destruct (Hex 3) as [(cst & Hin & Hl) _]; [lia|].
  exists m, cst. split; [exact Hm|]. split; [exact Hin|exact Hl].
Defined.

End RowsColumns.

(** ** Printing a board *)

Section PrintedBoard.

Import Py Dimod IO.

Variable N : Z.

Lemma bind_Some {A B} (m : io A) (k : A → io B) out y :
  (m ≫= k) out = y → is_Some y.2 →
  ∃ out' x, m out = (out', Some x) ∧ k x out' = y.
Proof.
  unfold mbind, io_bind. destruct (m out) as [out' [x|]]; intros <- Hy.
  - by exists out', x.
  - by destruct Hy.
Qed.

(** A loop that ends without raising ran every one of its bodies
    without raising. *)
Lemma for_each_Some {A} (body : A → io unit) l out x :
  is_Some (for_each body l out).2 → x ∈ l → ∃ o, is_Some (body x o).2.
Proof.
  revert out. induction l as [|y l IH]; intros out Hrun Hx; [by inv Hx|].
  simpl in Hrun.
  destruct (bind_Some (body y) (λ _, for_each body l) out _ eq_refl Hrun)
    as (out' & [] & Hy & Hrest).
  apply elem_of_cons in Hx as [->|Hx].
  - exists out. by rewrite Hy.
  - apply (IH out'); [|done]. by rewrite Hrest.
Qed.

Lemma print_square_Some s r c out :
  is_Some (print_square s r c out).2 → is_Some (values s !! varname r c).
Proof.
  unfold print_square, lift, mbind, io_bind.
  destruct (values s !! varname r c); [done|]. by intros [? ?].
Qed.

(** X9. Printing the board of a sample ends without raising exactly
    when the sample gives a value to every square variable; the text
    printed before is kept either way. *)
Theorem board_raises_iff (i : Z) (s : sample) (out : string) :
  ((print_board N (i, s) out).2 = Some tt ↔ complete N s) ∧
  ∃ rest, (print_board N (i, s) out).1 = out +:+ rest.
Proof.
  split; [|apply extends_print_board]. split.
  - intros Hrun. apply Forall_forall.
    intros x (r & c & Hr & Hc & ->)%elem_of_vlabels.
    unfold print_board in Hrun. cbn [fst snd] in Hrun.
    match type of Hrun with (?m ?o).2 = _ =>
      destruct (bind_Some _ _ o _ (eq_refl (m o))) as (o1 & [] & _ & H1);
        [by rewrite Hrun|rewrite <-H1 in Hrun; clear H1]
    end.
    match type of Hrun with (?m ?o).2 = _ =>
      destruct (bind_Some _ _ o _ (eq_refl (m o))) as (o2 & [] & H2 & _);
        [by rewrite Hrun|]
    end.
    destruct (for_each_Some (print_row N s) (range N) o1 r) as [o3 Hrow];
      [by rewrite H2|apply elem_of_seqZ; lia|].
    unfold print_row in Hrow.
    match type of Hrow with is_Some (?m ?o).2 =>
      destruct (bind_Some _ _ o _ (eq_refl (m o))) as (o4 & [] & H4 & _);
        [done|]
    end.
    destruct (for_each_Some (print_square s r) (range N) o3 c) as [o5 Hsq];
      [by rewrite H4|apply elem_of_seqZ; lia|].
    by apply print_square_Some in Hsq.
  - intros Hs. by rewrite print_board_run.
Qed.

End PrintedBoard.

Section ReadBack.

Import Py Dimod IO.

Variable N : Z.
Variable s : sample.

Lemma join_cons {A} (text : A → string) x l :
  join text (x :: l) = text x +:+ join text l.
Proof. done. Qed.

Lemma length_append (t u : string) :
  String.length (t +:+ u) = (String.length t + String.length u)%nat.
Proof.
  induction t as [|a t IH]; [done|]. rewrite append_cons. simpl. by rewrite IH.
Qed.

Lemma length_square_text v : String.length (square_text v) = 4%nat.
Proof. unfold square_text. by case_bool_decide. Qed.

Lemma length_join_squares (f : Z → Z) (l : list Z) :
  String.length (join (λ c, square_text (f c)) l) = (4 * length l)%nat.
Proof.
  induction l as [|x l IH]; [done|].
  rewrite join_cons, length_append, length_square_text, IH. simpl. lia.
Qed.

(** The marker of the square at position [k] of a printed row is its
    character at position [4 * k + 2]. *)
Lemma get_join_squares (f : Z → Z) (l : list Z) (k : nat) x rest :
  l !! k = Some x →
  String.get (4 * k + 2) (join (λ c, square_text (f c)) l +:+ rest)
  = Some (if bool_decide (0 < f x) then "W" else ".")%char.
Proof.
  revert k. induction l as [|y l IH]; intros k Hk; [done|].
  rewrite join_cons, append_assoc. destruct k as [|k]; simpl in Hk.
  - injection Hk as ->. unfold square_text. by case_bool_decide.
  - replace (4 * S k + 2)%nat with (S (S (S (S (4 * k + 2))))) by lia.
    rewrite <-(IH k Hk). unfold square_text. by destruct (bool_decide (0 < f y)).
Qed.

(** X10. The printed row of a sample that gives a value to every
    square variable can be read back: it is [4 * N + 2] characters
    long, line feed included, and for every column [c] its character
    at position [4 * c + 2] is the queen marker when the value of the
    square is greater than 0 and the dot otherwise. *)
Theorem row_read_back (r : Z) :
  complete N s → 0 ≤ r < N →
  ∃ line, print_row N s r "" = (line, Some tt) ∧
    String.length line = Z.to_nat (4 * N + 2) ∧
    ∀ c, 0 ≤ c < N →
      String.get (Z.to_nat (4 * c + 2)) line
      = Some (if bool_decide (0 < default 0 (values s !! varname r c))
              then "W" else ".")%char.
Proof.
  intros Hs Hr. exists (row_text N s r).
  split; [by rewrite print_row_run|]. unfold row_text. split.
  - rewrite length_append,
      (length_join_squares (λ c, default 0 (values s !! varname r c))).
    unfold range. rewrite length_seqZ. simpl. lia.
  - intros c Hc. replace (Z.to_nat (4 * c + 2)) with (4 * Z.to_nat c + 2)%nat by lia.
    apply (get_join_squares (λ c, default 0 (values s !! varname r c))).
    unfold range. rewrite lookup_seqZ_lt by lia. f_equal. lia.
Qed.

End ReadBack.

(** X10, on a board of side two with one queen. *)
Lemma row_read_back_witness :
  ∃ line,
    print_row 2
      (Dimod.Sample (Py.dict_of
         [("square_r0_c0", 0); ("square_r0_c1", 1);
          ("square_r1_c0", 0); ("square_r1_c1", 0)]%string) 0 true) 0 ""
    = (line, Some tt) ∧
    String.get 6 line = Some "W"%char.
Proof.
  destruct (row_read_back 2
    (Dimod.Sample (Py.dict_of
       [("square_r0_c0", 0); ("square_r0_c1", 1);
        ("square_r1_c0", 0); ("square_r1_c1", 0)]%string) 0 true) 0)
    as (line & Hrun & _ & Hget).
  - unfold complete. repeat constructor; by eexists.
  - lia.
  - exists line. split; [done|]. by apply (Hget 1).
Defined.

Section MarkerCount.

Import Py Dimod IO.

Variable N : Z.
Variable s : sample.

Lemma zsum_filter {A} (P : A → Prop) `{∀ x, Decision (P x)} (l : list A) :
  Z.of_nat (length (filter P l)) = zsum (λ x, if decide (P x) then 1 else 0) l.
Proof.
  induction l as [|x l IH]; [done|].
  rewrite filter_cons, zsum_cons, <-IH. destruct (decide (P x)); simpl; lia.
Qed.

Lemma zsum_grid (f : string → Z) :
  zsum f (vlabels N)
  = zsum (λ r, zsum (λ c, f (varname r c)) (range N)) (range N).
Proof.
  unfold vlabels. rewrite zsum_bind. apply zsum_ext. intros r _.
  by rewrite bind_ret_fmap, zsum_fmap.
Qed.

Lemma count_marker v :
  Z.of_nat (count "W"%char (square_text v)) = if decide (0 < v) then 1 else 0.
Proof.
  unfold square_text. case_bool_decide; case_decide; done.
Qed.

(** X11. Whatever the values of a sample that gives a value to every
    square variable, its printed board holds as many queen markers as
    there are squares with a value greater than 0. *)
Theorem markers_are_positive_squares (i : Z) :
  complete N s →
  ∃ text, print_board N (i, s) "" = (text, Some tt) ∧
    count "W"%char text
    = length (filter (λ x, 0 < default 0 (values s !! x)) (vlabels N)).
Proof.
  intros Hs. exists (board_text N (i, s)).
  split; [by rewrite print_board_run|]. apply Nat2Z.inj.
  rewrite zsum_filter, zsum_grid. unfold board_text. cbn [fst snd].
  rewrite !count_app, (count_str "W"%char) by apply not_numeric_W.
  rewrite !Nat2Z.inj_add, count_join.
  change (Z.of_nat (count "W"%char "Result ")) with 0.
  change (Z.of_nat (count "W"%char "    =====================")) with 0.
  change (Z.of_nat (count "W"%char "=================================")) with 0.
  change (Z.of_nat (count "W"%char nl)) with 0.
  simpl (Z.of_nat 0). rewrite !Z.add_0_l, !Z.add_0_r.
  apply zsum_ext. intros r _. unfold row_text.
  rewrite count_app, Nat2Z.inj_add, count_join.
  change (Z.of_nat (count "W"%char ("|" +:+ nl))) with 0. rewrite Z.add_0_r.
  apply zsum_ext. intros c _. apply count_marker.
Qed.

End MarkerCount.

(** X11, on a board of side two whose sample holds the values 2 and
    -1 as well. *)
Lemma markers_are_positive_squares_witness :
  ∃ text,
    print_board 2
      (0, Dimod.Sample (Py.dict_of
            [("square_r0_c0", 2); ("square_r0_c1", 1);
             ("square_r1_c0", -1); ("square_r1_c1", 0)]%string) 0 true) ""
    = (text, Some tt) ∧
    count "W"%char text = 2%nat.
Proof.
  destruct (markers_are_positive_squares 2
    (Dimod.Sample (Py.dict_of
       [("square_r0_c0", 2); ("square_r0_c1", 1);
        ("square_r1_c0", -1); ("square_r1_c1", 0)]%string) 0 true) 0)
    as (text & Hrun & Hcount).
  - unfold complete. repeat constructor; by eexists.
  - exists text. split; [done|]. rewrite Hcount. reflexivity.
Defined.

(** ** The whole run *)

Section WholeRun.

Import Py Dimod IO.

Lemma rendered_complete argsort N (raw_sampleset : list sample) :
  Forall (complete N) raw_sampleset →
  Forall (complete N) (rendered argsort raw_sampleset).
Proof.
  rewrite !Forall_forall. intros Hall d Hd. apply Hall.
  by apply (rendered_raw argsort).
Qed.

Context {W : Type}.
Variable sample_cqm : CQM → W → option (list sample) * W.
Variable table : list sample → string.
Variable argsort : list Qc → list nat.

(** X13. When the model builds and the sampler returns, for that
    model, samples that give a value to each of its variables, the
    run ends without raising: it hands the built model to the
    sampler, leaves the service in the state the sampler left it in,
    and prints the count of feasible samples first. *)
Theorem script_run NQ N (w w' : W) m (raw_sampleset : list sample) :
  build NQ N = Some m →
  sample_cqm m w = (Some raw_sampleset, w') →
  Forall (answers m) raw_sampleset →
  ∃ rest,
    script sample_cqm table argsort NQ N w
    = (Some m, w',
       (str (Z.of_nat (length (filter_feasible raw_sampleset)))
        +:+ " Feasible samples" +:+ nl +:+ rest, Some tt)).
Proof.
  intros Hm Hsample Hraw. unfold script. rewrite Hm, Hsample.
  assert (Forall (complete N) raw_sampleset) as Hall.
  { eapply Forall_impl; [exact Hraw|]. intros s. by apply answers_complete with NQ. }
  rewrite report_run by (by apply rendered_complete).
  eexists. unfold count_line. by rewrite append_nil_l, !append_assoc.
Qed.

End WholeRun.

(** X13, for one queen on one square and a sampler that returns the
    one feasible sample. *)
Lemma script_run_witness :
  ∃ rest,
    script (W:=unit)
      (λ _ w, (Some [Dimod.Sample
                       (Py.dict_of [("square_r0_c0"%string, 1)]) 0 true], w))
      (λ _, ""%string) Np.stable_argsort 1 1 tt
    = (Some (model 1 1), tt,
       (("1 Feasible samples" +:+ IO.nl +:+ rest)%string, Some tt)).
Proof.
  destruct (script_run (W:=unit)
              (λ _ w, (Some [Dimod.Sample
                               (Py.dict_of [("square_r0_c0"%string, 1)]) 0 true], w))
              (λ _, ""%string) Np.stable_argsort 1 1 tt tt (model 1 1)
              [Dimod.Sample (Py.dict_of [("square_r0_c0"%string, 1)]) 0 true])
    as [rest Hrest].
  - reflexivity.
  - reflexivity.
  - repeat constructor; by eexists.
  - exists rest. exact Hrest.
Defined.

(** ** The model and the puzzle, for any number of queens *)

Section AnyNumber.

Import Py Dimod.

Variables (NQ N : Z).
Variable s : gmap string Z.
Hypothesis HN : 1 ≤ N.
Hypothesis Hs : assignment N s.

Let V (r c : Z) : Z := value s (varname r c).

Lemma value_one r c :
  0 ≤ r < N → 0 ≤ c < N → V r c = 1 ↔ s !! varname r c = Some 1.
Proof.
  intros Hr Hc. unfold V, value.
  destruct (assignment_defined N s Hs (varname r c)) as [v ->].
  { apply elem_of_vlabels. by exists r, c. }
  simpl. split; [by intros ->|by intros [= ->]].
Qed.

Lemma value_binary r c : 0 ≤ r < N → 0 ≤ c < N → V r c = 0 ∨ V r c = 1.
Proof.
  intros Hr Hc. destruct Hs as [_ Hbin].
  pose proof (binary_nonneg N s r c Hbin Hr Hc). unfold V. lia.
Qed.

Lemma square_value_binary d v :
  d ∈ diags N → v ∈ d →
  value s (square N v) = 0 ∨ value s (square N v) = 1.
Proof.
  intros Hd Hv. destruct (diags_elem N d HN Hd) as (col & k & Hcol & _ & ->).
  apply rc_diag_squares in Hv as (r & c & Hr & Hc & -> & _); [|done..].
  rewrite square_number by done. by apply value_binary.
Qed.

(** The number of queens is the sum of the values. *)
Lemma queens_total :
  total_sum NQ N s ↔
  Z.of_nat (length (filter (λ x, s !! x = Some 1) (vlabels N))) = NQ.
Proof.
  unfold total_sum. rewrite <-zsum_vlabels, zsum_filter.
  rewrite (zsum_ext (value s) (λ x, if decide (s !! x = Some 1) then 1 else 0));
    [done|].
  intros x (r & c & Hr & Hc & ->)%elem_of_vlabels.
  pose proof (value_one r c Hr Hc) as Hone.
  destruct (value_binary r c Hr Hc) as [H0|H1]; unfold V in *.
  - rewrite H0. case_decide as E; [|done]. apply Hone in E. lia.
  - rewrite H1. case_decide as E; [done|]. by destruct E; apply Hone.
Qed.

Lemma peaceful_rows :
  row_sums N s ↔
  ∀ r c1 c2, 0 ≤ r < N → 0 ≤ c1 < N → 0 ≤ c2 < N →
    V r c1 = 1 → V r c2 = 1 → c1 = c2.
Proof.
  unfold row_sums. split.
  - intros Hrow r c1 c2 Hr Hc1 Hc2 H1 H2.
    apply (zsum_at_most_one (λ c, V r c) (range N));
      [apply NoDup_seqZ| |by apply Hrow|apply elem_of_seqZ; lia..|done|done].
    intros c Hc%elem_of_seqZ. apply value_binary; lia.
  - intros Huniq r Hr.
    apply (zsum_at_most_one (λ c, V r c) (range N)); [apply NoDup_seqZ|..].
    + intros c Hc%elem_of_seqZ. apply value_binary; lia.
    + intros c1 c2 Hc1%elem_of_seqZ Hc2%elem_of_seqZ. apply Huniq; lia.
Qed.

Lemma peaceful_cols :
  col_sums N s ↔
  ∀ c r1 r2, 0 ≤ c < N → 0 ≤ r1 < N → 0 ≤ r2 < N →
    V r1 c = 1 → V r2 c = 1 → r1 = r2.
Proof.
  unfold col_sums. split.
  - intros Hcol c r1 r2 Hc Hr1 Hr2 H1 H2.
    apply (zsum_at_most_one (λ r, V r c) (range N));
      [apply NoDup_seqZ| |by apply Hcol|apply elem_of_seqZ; lia..|done|done].
    intros r Hr%elem_of_seqZ. apply value_binary; lia.
  - intros Huniq c Hc.
    apply (zsum_at_most_one (λ r, V r c) (range N)); [apply NoDup_seqZ|..].
    + intros r Hr%elem_of_seqZ. apply value_binary; lia.
    + intros r1 r2 Hr1%elem_of_seqZ Hr2%elem_of_seqZ. apply Huniq; lia.
Qed.

Lemma peaceful_diags :
  diag_sums N s ↔
  ∀ r1 c1 r2 c2, 0 ≤ r1 < N → 0 ≤ c1 < N → 0 ≤ r2 < N → 0 ≤ c2 < N →
    V r1 c1 = 1 → V r2 c2 = 1 → (r1, c1) ≠ (r2, c2) →
    c1 - r1 ≠ c2 - r2 ∧ r1 + c1 ≠ r2 + c2.
Proof.
  unfold diag_sums. split.
  - intros Hdiag r1 c1 r2 c2 Hr1 Hc1 Hr2 Hc2 H1 H2 Hne.
    cut (¬ (c1 - r1 = c2 - r2 ∨ r1 + c1 = r2 + c2)); [lia|]. intros Hatt.
    destruct (diagonal_common_group N r1 c1 r2 c2) as (g & Hg & Hin1 & Hin2);
      [done..|].
    assert (r1 * N + c1 = r2 * N + c2) as E.
    { apply (zsum_at_most_one (λ v, value s (square N v)) g);
        [by apply (NoDup_diag_group N)|intros z Hz; by apply (square_value_binary g)
        |by apply Hdiag|done|done|by rewrite square_number..]. }
    apply Hne. f_equal; nia.
  - intros Hfree d Hd.
    apply zsum_at_most_one;
      [by apply (NoDup_diag_group N)|intros z Hz; by apply (square_value_binary d)|].
    intros v1 v2 Hv1 Hv2 H1 H2.
    destruct (diags_elem N d HN Hd) as (col & k & Hcol & _ & Ed).
    pose proof Hv1 as Hv1'. pose proof Hv2 as Hv2'. rewrite Ed in Hv1', Hv2'.
    apply rc_diag_squares in Hv1' as (r1 & c1 & Hr1 & Hc1 & -> & _); [|done..].
    apply rc_diag_squares in Hv2' as (r2 & c2 & Hr2 & Hc2 & -> & _); [|done..].
    rewrite square_number in H1, H2 by done.
    destruct (decide ((r1, c1) = (r2, c2))) as [[= -> ->]|Hne]; [done|].
    destruct (Hfree r1 c1 r2 c2) as [? ?]; [done..|].
    destruct (common_group_diagonal N d r1 c1 r2 c2); done.
Qed.

(** A feasible assignment is a set of [NQ] queens no two of which
    attack each other. *)
Lemma satisfies_peaceful :
  satisfies s (model NQ N) ↔
  Z.of_nat (length (filter (λ x, s !! x = Some 1) (vlabels N))) = NQ ∧
  ∀ r1 c1 r2 c2,
    0 ≤ r1 < N → 0 ≤ c1 < N → 0 ≤ r2 < N → 0 ≤ c2 < N →
    s !! varname r1 c1 = Some 1 → s !! varname r2 c2 = Some 1 →
    (r1, c1) ≠ (r2, c2) →
    r1 ≠ r2 ∧ c1 ≠ c2 ∧ c1 - r1 ≠ c2 - r2 ∧ r1 + c1 ≠ r2 + c2.
Proof.
  rewrite satisfies_sums by (done || by apply assignment_defined).
  rewrite queens_total, peaceful_rows, peaceful_cols, peaceful_diags.
  apply and_iff_compat_l. split.
  - intros (Hcol & Hrow & Hdiag) r1 c1 r2 c2 Hr1 Hc1 Hr2 Hc2 H1 H2 Hne.
    apply value_one in H1, H2; [|done..].
    destruct (Hdiag r1 c1 r2 c2) as [? ?]; [done..|].
    split; [|split; [|done]].
    + intros ->. apply Hne. f_equal. by apply (Hrow r2).
    + intros ->. apply Hne. f_equal. by apply (Hcol c2).
  - intros Hfree. split; [|split].
    + intros c r1 r2 Hc Hr1 Hr2 H1%value_one H2%value_one; [|done..].
      destruct (decide (r1 = r2)) as [|Hne]; [done|].
      destruct (Hfree r1 c r2 c) as (_ & ? & _); [done..|congruence|done].
    + intros r c1 c2 Hr Hc1 Hc2 H1%value_one H2%value_one; [|done..].
      destruct (decide (c1 = c2)) as [|Hne]; [done|].
      destruct (Hfree r c1 r c2) as (? & _); [done..|congruence|done].
    + intros r1 c1 r2 c2 Hr1 Hc1 Hr2 Hc2 H1%value_one H2%value_one Hne;
        [|done..].
      destruct (Hfree r1 c1 r2 c2) as (_ & _ & ? & ?); done.
Qed.

End AnyNumber.

Section AnyNumberProperty.

Import Py Dimod.

(** X14. On a board of side [N >= 1] and for any number of queens,
    an assignment of 0 or 1 to the square variables satisfies the
    built model exactly when it sets [NQ] variables to 1 and no two of
    their squares share a row, a column or a diagonal. *)
Theorem model_encodes_queens NQ N :
  1 ≤ N →
  ∃ m, build NQ N = Some m ∧
    ∀ s, assignment N s →
      (satisfies s m ↔
       Z.of_nat (length (filter (λ x, s !! x = Some 1) (vlabels N))) = NQ ∧
       ∀ r1 c1 r2 c2,
         0 ≤ r1 < N → 0 ≤ c1 < N → 0 ≤ r2 < N → 0 ≤ c2 < N →
         s !! varname r1 c1 = Some 1 → s !! varname r2 c2 = Some 1 →
         (r1, c1) ≠ (r2, c2) →
         r1 ≠ r2 ∧ c1 ≠ c2 ∧ c1 - r1 ≠ c2 - r2 ∧ r1 + c1 ≠ r2 + c2).
Proof.
  intros HN. exists (model NQ N). split; [by apply build_model|].
  intros s Hs. by apply satisfies_peaceful.
Qed.

(** X14, for one queen on the board of side two: the sample with its
    queen on the first square is feasible. *)
Lemma model_encodes_queens_witness :
  ∃ m, build 1 2 = Some m ∧
    satisfies (dict_of [("square_r0_c0", 1); ("square_r0_c1", 0);
                        ("square_r1_c0", 0); ("square_r1_c1", 0)]%string) m.
Proof.
  destruct (model_encodes_queens 1 2) as (m & Hm & Hiff); [lia|].
  exists m. split; [done|]. apply Hiff.
  - split; [by vm_compute|].
    intros x v Hx Hv. unfold vlabels in Hx. simpl in Hx.
    repeat (apply elem_of_cons in Hx as [->|Hx]; [vm_compute in Hv; injection Hv as <-; auto|]).
    by apply not_elem_of_nil in Hx.
  - split; [reflexivity|].
    intros r1 c1 r2 c2 Hr1 Hc1 Hr2 Hc2 H1 H2 Hne. exfalso. apply Hne.
    assert (r1 = 0 ∨ r1 = 1) as [-> | ->] by lia;
    assert (c1 = 0 ∨ c1 = 1) as [-> | ->] by lia;
    assert (r2 = 0 ∨ r2 = 1) as [-> | ->] by lia;
    assert (c2 = 0 ∨ c2 = 1) as [-> | ->] by lia;
    vm_compute in H1, H2; done.
Defined.

End AnyNumberProperty.
